(** * LOST utilities: the markdown code-block pipeline

    A shallow embedding of [lostutils/style.py] ([format_str],
    [format_file]), of the [style] command of [lostutils/cli.py] and of
    [get_top_level_block_codes] of [tests/test_samples.py], with the
    properties of the rewrite path and of the block extractor.

    Text is a list of characters.  A character is a code point below 256
    ([ascii]); on that range [str.isspace] and [str.lower] are the tables
    given below.  An exception is a result [Err]; a file system is a map
    from names to texts that lets every file be written.

    Collaborators that live outside the repository (the [black]
    formatter, the R styler run through docker, the [mistune] parser and
    [urllib.parse.parse_qs]) are the variables of the section: every
    theorem holds whatever they compute, as long as the same input gives
    the same output. *)

From Stdlib Require Import List Ascii String Bool Arith NArith Lia.
From Stdlib Require Import Permutation.
Import ListNotations.

Set Implicit Arguments.

(** ** Text *)

Definition str := list ascii.

(** A literal, written as a Rocq string. *)
Definition py (s : string) : str := list_ascii_of_string s.

Arguments py : simpl never.

Definition nl : ascii := "010"%char.
Definition cr : ascii := "013"%char.
Definition backtick : ascii := "`"%char.

(** The fence marker, three backticks. *)
Definition fence : str := [backtick; backtick; backtick].

Definition str_eqb (a b : str) : bool :=
  if list_eq_dec ascii_dec a b then true else false.

(** [str.isspace] on one character: TAB..CR, FS..US, space, NEL, NBSP. *)
Definition is_space (c : ascii) : bool :=
  let n := N_of_ascii c in
  (((9 <=? n) && (n <=? 13)) || ((28 <=? n) && (n <=? 32))
   || (n =? 133) || (n =? 160))%N.

(** [str.lower] on one character: A..Z and the Latin-1 capitals
    (all of 192..222 but the multiplication sign) move up by 32. *)
Definition lower_char (c : ascii) : ascii :=
  let n := N_of_ascii c in
  if (((65 <=? n) && (n <=? 90))
      || ((192 <=? n) && (n <=? 222) && negb (n =? 215)))%N
  then ascii_of_N (n + 32) else c.

Definition lower (s : str) : str := map lower_char s.

Fixpoint lstrip (s : str) : str :=
  match s with
  | [] => []
  | c :: t => if is_space c then lstrip t else s
  end.

Fixpoint rstrip (s : str) : str :=
  match s with
  | [] => []
  | c :: t =>
      match rstrip t with
      | [] => if is_space c then [] else [c]
      | r => c :: r
      end
  end.

Definition strip (s : str) : str := rstrip (lstrip s).

Fixpoint startswith (p s : str) : bool :=
  match p, s with
  | [], _ => true
  | _ :: _, [] => false
  | a :: p', b :: s' => Ascii.eqb a b && startswith p' s'
  end.

(** [sep.join(parts)] *)
Fixpoint join (sep : str) (parts : list str) : str :=
  match parts with
  | [] => []
  | x :: rest =>
      match rest with
      | [] => x
      | _ :: _ => x ++ sep ++ join sep rest
      end
  end.

(** Text mode with [newline=None]: a CR LF pair and a lone CR are read
    as one LF. *)
Fixpoint universal_newlines (s : str) : str :=
  match s with
  | [] => []
  | c :: t =>
      if Ascii.eqb c cr then
        match t with
        | d :: _ => if Ascii.eqb d nl then universal_newlines t
                    else nl :: universal_newlines t
        | [] => [nl]
        end
      else c :: universal_newlines t
  end.

(** Iterating over the file object: the lines, each with its LF when it
    has one. *)
Fixpoint readlines (s : str) : list str :=
  match s with
  | [] => []
  | c :: t =>
      if Ascii.eqb c nl then [c] :: readlines t
      else match readlines t with
           | [] => [[c]]
           | l :: ls => (c :: l) :: ls
           end
  end.

(** ** Exceptions *)

Inductive exn : Type :=
| InvalidInput            (* black rejects the source *)
| ExternalInvocationFailure (* docker cannot be run, or its output not decoded *)
| AttributeError
| IndexError
| FileNotFoundError.

Inductive result (A : Type) : Type :=
| Ok (a : A)
| Err (e : exn).

Arguments Ok {A} a.
Arguments Err {A} e.

Definition bind {A B} (r : result A) (k : A -> result B) : result B :=
  match r with
  | Ok a => k a
  | Err e => Err e
  end.

Notation "x <- r ;; k" := (bind r (fun x => k))
  (at level 61, r at next level, right associativity).

(** ** lostutils/style.py *)

Record fence_state : Type := mk_state {
  is_in_fence : bool;
  fence_parameters : option str;
  fenced_lines : list str;
  final_lines : list str
}.

Definition init_state : fence_state := mk_state false None [] [].

Section Pipeline.

Set Default Proof Using "Type".

(** [black.format_str(src, mode=black.Mode())] *)
Variable black_format_str : str -> result str.

(** The docker run of [styler::style_text] in image [r_docker_image]
    on the source sent to its standard input: the decoded standard
    output. *)
Variable styler : str -> str -> result str.

Definition format_str (src_string parameters r_docker_image : str)
  : result str :=
  let parameters := lower (strip parameters) in
  if startswith (py "py") parameters then
    out <- black_format_str src_string ;;
    Ok (join [nl] [fence ++ parameters; rstrip out; fence])
  else if startswith (py "r") parameters then
    out <- styler r_docker_image src_string ;;
    Ok (join [nl] [fence ++ parameters; rstrip out; fence])
  else
    Ok (join [nl] [fence ++ parameters; src_string; fence]).

(** The body of the loop of [format_file], on one line of the file. *)
Definition step (r_docker_image : str) (st : fence_state) (line : str)
  : result fence_state :=
  let line := rstrip line in
  if startswith fence line then
    if is_in_fence st then
      match fence_parameters st with
      | None => Err AttributeError
      | Some p =>
          block <- format_str (join [nl] (fenced_lines st)) p r_docker_image ;;
          Ok (mk_state false None [] (final_lines st ++ [block]))
      end
    else
      Ok (mk_state true (Some (skipn 3 (strip line)))
                   (fenced_lines st) (final_lines st))
  else if is_in_fence st then
    Ok (mk_state (is_in_fence st) (fence_parameters st)
                 (fenced_lines st ++ [line]) (final_lines st))
  else
    Ok (mk_state (is_in_fence st) (fence_parameters st)
                 (fenced_lines st) (final_lines st ++ [rstrip line])).

Fixpoint scan (r_docker_image : str) (st : fence_state) (lines : list str)
  : result fence_state :=
  match lines with
  | [] => Ok st
  | line :: rest =>
      st' <- step r_docker_image st line ;;
      scan r_docker_image st' rest
  end.

(** What follows the loop: merge the lines, drop the trailing
    whitespace, end in a newline. *)
Definition finish (final : list str) : str :=
  rstrip (join [nl] final) ++ [nl].

Definition format_lines (r_docker_image : str) (lines : list str)
  : result str :=
  st <- scan r_docker_image init_state lines ;;
  Ok (finish (final_lines st)).

(** [format_file] once the file is open: the loop over the lines of
    its text and what follows the loop.  The command below opens the
    file before it, as does [format_file_at]. *)
Definition format_file (content r_docker_image : str) : result str :=
  format_lines r_docker_image (readlines (universal_newlines content)).

(** ** lostutils/cli.py: the [style] command *)

(** The files the command can open, by name. *)
Definition filesystem := str -> option str.

(** [open(filename, "wt")] followed by the writes, on a file system that
    lets every file be written. *)
Definition fs_write (fs : filesystem) (filename content : str) : filesystem :=
  fun n => if str_eqb n filename then Some content else fs n.

(** [open(filename, "rt")] *)
Definition open_rt (fs : filesystem) (filename : str) : result str :=
  match fs filename with
  | Some content => Ok content
  | None => Err FileNotFoundError
  end.

(** [print(text, file=outfile)]: the text, then a newline. *)
Definition print (text : str) : str := text ++ [nl].

(** [style_command] on the names that [expand_and_filter_filenames]
    returned.  An exception leaves the loop and the command. *)
Fixpoint style_command (filenames : list str) (docker_r : str)
    (fs : filesystem) : filesystem * result unit :=
  match filenames with
  | [] => (fs, Ok tt)
  | filename :: rest =>
      match (content <- open_rt fs filename ;;
             format_file content docker_r) with
      | Err e => (fs, Err e)
      | Ok fixed_md =>
          style_command rest docker_r (fs_write fs filename (print fixed_md))
      end
  end.

(** [links_command] writes with [outfile.write]: the text as it is. *)
Definition links_write (fs : filesystem) (filename fixed_md : str)
  : filesystem :=
  fs_write fs filename fixed_md.

(** ** tests/test_samples.py: [get_top_level_block_codes] *)

(** A dict of lists, in insertion order. *)
Definition dict (V : Type) := list (str * list V).

Fixpoint dict_get {V} (key : str) (d : dict V) : option (list V) :=
  match d with
  | [] => None
  | (k, v) :: rest => if str_eqb k key then Some v else dict_get key rest
  end.

(** [d[key].append(value)] on a [defaultdict(list)]; also the
    accumulation that [parse_qs] does. *)
Fixpoint dict_append {V} (key : str) (value : V) (d : dict V) : dict V :=
  match d with
  | [] => [(key, [value])]
  | (k, v) :: rest =>
      if str_eqb k key then (k, v ++ [value]) :: rest
      else (k, v) :: dict_append key value rest
  end.

Record CodeBlock : Type := mk_block {
  language : str;
  code : str;
  options : dict str;
  location : str
}.

(** One element of the list that the parser returns: its ["type"], its
    ["info"] ([None] when the fence has none) and its ["text"]. *)
Record elt : Type := mk_elt {
  elt_type : str;
  elt_info : option str;
  elt_text : str
}.

(** [s.partition(c)]: the text before the first [c] and the text after
    it; nothing after when [c] is absent. *)
Fixpoint partition (c : ascii) (s : str) : str * str :=
  match s with
  | [] => ([], [])
  | d :: t =>
      if Ascii.eqb d c then ([], t)
      else let '(a, b) := partition c t in (d :: a, b)
  end.

Definition question : ascii := "?"%char.

Record extraction : Type := mk_extraction {
  named_blocks : dict CodeBlock;
  unnamed_blocks : list CodeBlock
}.

(** [mistune.create_markdown(renderer=mistune.AstRenderer())] *)
Variable markdown : str -> list elt.

(** [urllib.parse.parse_qs] *)
Variable parse_qs : str -> dict str.

(** [elt.get("info") or ""]: the parser gives [None] to a fence without
    header. *)
Definition or_empty (info : option str) : str :=
  match info with
  | Some ((_ :: _) as i) => i
  | _ => []
  end.

(** [doptions.get("example", [""])[0]] *)
Definition example_name (doptions : dict str) : result str :=
  match dict_get (py "example") doptions with
  | None => Ok []
  | Some [] => Err IndexError
  | Some (name :: _) => Ok name
  end.

(** From the fence header: language, options and group name. *)
Definition parse_header (info : option str)
  : result (str * dict str * str) :=
  let language := or_empty info in
  let language := lower language in
  let '(language, options) := partition question language in
  match options with
  | _ :: _ =>
      let doptions := parse_qs options in
      name <- example_name doptions ;;
      Ok (language, doptions, name)
  | [] => Ok (language, [], [])
  end.

(** The body of the first loop. *)
Definition visit (location : str) (acc : extraction) (e : elt)
  : result extraction :=
  if str_eqb (elt_type e) (py "block_code") then
    header <- parse_header (elt_info e) ;;
    let '(language, doptions, name) := header in
    let block := mk_block language (elt_text e) doptions location in
    match name with
    | _ :: _ =>
        Ok (mk_extraction (dict_append name block (named_blocks acc))
                          (unnamed_blocks acc))
    | [] =>
        Ok (mk_extraction (named_blocks acc) (unnamed_blocks acc ++ [block]))
    end
  else Ok acc.

Fixpoint visit_all (location : str) (acc : extraction) (ast : list elt)
  : result extraction :=
  match ast with
  | [] => Ok acc
  | e :: rest =>
      acc' <- visit location acc e ;;
      visit_all location acc' rest
  end.

(** The block built from one group. *)
Definition merge_blocks (location : str) (block_of_blocks : list CodeBlock)
  : result CodeBlock :=
  match block_of_blocks with
  | [] => Err IndexError
  | first :: _ =>
      Ok (mk_block (language first)
                   (join [nl; nl] (map code block_of_blocks))
                   (options first)
                   location)
  end.

(** The second loop, over [named_blocks.values()]. *)
Fixpoint append_merged (location : str) (groups : dict CodeBlock)
    (unnamed : list CodeBlock) : result (list CodeBlock) :=
  match groups with
  | [] => Ok unnamed
  | (_, block_of_blocks) :: rest =>
      merged <- merge_blocks location block_of_blocks ;;
      append_merged location rest (unnamed ++ [merged])
  end.

Definition get_top_level_block_codes (mark location : str)
  : result (list CodeBlock) :=
  let ast := markdown mark in
  acc <- visit_all location (mk_extraction [] []) ast ;;
  append_merged location (named_blocks acc) (unnamed_blocks acc).

(** ** A query-string parser

    [urllib.parse.parse_qs] with its default arguments, for the places
    that need one parser in particular: pairs separated by [&], name and
    value by the first [=], pairs without a value dropped, [+] read as a
    space, [%XX] as the character [XX].  An escape above [%7F] is one
    byte of a UTF-8 sequence, whose character this alphabet may lack:
    it is kept as written. *)

Fixpoint split_on (c : ascii) (s : str) : list str :=
  match s with
  | [] => [[]]
  | d :: t =>
      if Ascii.eqb d c then [] :: split_on c t
      else match split_on c t with
           | [] => [[d]]
           | x :: xs => (d :: x) :: xs
           end
  end.

(** [s.split(c, 1)] when [c] occurs in [s]. *)
Fixpoint split_once (c : ascii) (s : str) : option (str * str) :=
  match s with
  | [] => None
  | d :: t =>
      if Ascii.eqb d c then Some ([], t)
      else match split_once c t with
           | Some (a, b) => Some (d :: a, b)
           | None => None
           end
  end.

Definition hex_digit (c : ascii) : option N :=
  let n := N_of_ascii c in
  (if (48 <=? n) && (n <=? 57) then Some (n - 48)
   else if (65 <=? n) && (n <=? 70) then Some (n - 55)
   else if (97 <=? n) && (n <=? 102) then Some (n - 87)
   else None)%N.

Definition percent : ascii := "%"%char.

Fixpoint unquote (s : str) : str :=
  match s with
  | [] => []
  | c :: t =>
      if Ascii.eqb c percent then
        match t with
        | a :: b :: t' =>
            match hex_digit a, hex_digit b with
            | Some x, Some y =>
                if (16 * x + y <? 128)%N
                then ascii_of_N (16 * x + y) :: unquote t'
                else c :: unquote t
            | _, _ => c :: unquote t
            end
        | _ => c :: unquote t
        end
      else c :: unquote t
  end.

Definition plus_to_space (s : str) : str :=
  map (fun c => if Ascii.eqb c "+"%char then " "%char else c) s.

Definition parse_qsl (qs : str) : list (str * str) :=
  flat_map
    (fun name_value =>
       match split_once "="%char name_value with
       | Some (name, ((_ :: _) as value)) =>
           [(unquote (plus_to_space name), unquote (plus_to_space value))]
       | _ => []
       end)
    (split_on "&"%char qs).

Definition urllib_parse_qs (qs : str) : dict str :=
  fold_left (fun parsed nv => dict_append (fst nv) (snd nv) parsed)
            (parse_qsl qs) [].

(** ** The vocabulary of the extraction properties *)

(** The block that [visit] builds from a [block_code] element. *)
Definition block_of (location : str) (e : elt) : CodeBlock :=
  let language := lower (or_empty (elt_info e)) in
  let '(language, options) := partition question language in
  mk_block language (elt_text e)
           (match options with _ :: _ => parse_qs options | [] => [] end)
           location.

(** The fenced blocks of the document, in document order. *)
Definition document_blocks (location : str) (ast : list elt)
  : list CodeBlock :=
  map (block_of location)
      (filter (fun e => str_eqb (elt_type e) (py "block_code")) ast).

(** What [parse_qs] promises: a key that it returns has a value. *)
Definition example_values_nonempty : Prop :=
  forall query, dict_get (py "example") (parse_qs query) <> Some [].



(** [options["example"][0]], empty when the block has no such option. *)
Definition block_name (b : CodeBlock) : str :=
  match dict_get (py "example") (options b) with
  | Some (name :: _) => name
  | _ => []
  end.

Definition is_empty (s : str) : bool :=
  match s with [] => true | _ :: _ => false end.

(** What [visit] does with the block of a [block_code] element. *)
Definition add_block (acc : extraction) (b : CodeBlock) : extraction :=
  if is_empty (block_name b)
  then mk_extraction (named_blocks acc) (unnamed_blocks acc ++ [b])
  else mk_extraction (dict_append (block_name b) b (named_blocks acc))
                     (unnamed_blocks acc).

Definition unnamed (blocks : list CodeBlock) : list CodeBlock :=
  filter (fun b => is_empty (block_name b)) blocks.

(** The members of group [name], in the order of the scan. *)
Definition members (name : str) (blocks : list CodeBlock) : list CodeBlock :=
  filter (fun b => str_eqb (block_name b) name) blocks.

Definition mem (x : str) (l : list str) : bool := existsb (str_eqb x) l.

(** The distinct names of [l], each at its first occurrence. *)
Fixpoint first_occurrences_from (seen l : list str) : list str :=
  match l with
  | [] => []
  | x :: rest =>
      if mem x seen then first_occurrences_from seen rest
      else x :: first_occurrences_from (x :: seen) rest
  end.

Definition first_occurrences (l : list str) : list str :=
  first_occurrences_from [] l.

(** The group names of the document, in first-occurrence order. *)
Definition group_names (blocks : list CodeBlock) : list str :=
  first_occurrences
    (filter (fun n => negb (is_empty n)) (map block_name blocks)).

(** The block that stands for a group: the members' codes with a blank
    line between them, the rest from the first member. *)
Definition synthesized (group : list CodeBlock) : CodeBlock :=
  mk_block (match group with first :: _ => language first | [] => [] end)
           (join [nl; nl] (map code group))
           (match group with first :: _ => options first | [] => [] end)
           (match group with first :: _ => location first | [] => [] end).





(** ** The vocabulary of the rewrite properties *)

(** A line that the scanner takes for a fence marker. *)
Definition is_fence_line (line : str) : bool := startswith fence (rstrip line).

(** Where [format_str] sends a header. *)
Definition routed_py (header : str) : bool :=
  startswith (py "py") (lower (strip header)).

Definition routed_r (header : str) : bool :=
  startswith (py "r") (lower (strip header)).

Definition passthrough (header : str) : bool :=
  negb (routed_py header) && negb (routed_r header).

(** The text of a file with its line ends read as LF, every line
    right-trimmed, the trailing whitespace dropped and one newline at
    the end. *)
Definition normalize (content : str) : str :=
  rstrip (join [nl] (map rstrip (readlines (universal_newlines content))))
  ++ [nl].

(** The lines of a document whose fences are all closed by a bare
    marker, hold at least one line, and carry a stripped, lowercase
    header that no formatter takes. *)
Inductive verbatim_doc : list str -> Prop :=
| verbatim_nil : verbatim_doc []
| verbatim_plain line rest :
    is_fence_line line = false ->
    verbatim_doc rest ->
    verbatim_doc (line :: rest)
| verbatim_fence opening header body closing rest :
    rstrip opening = fence ++ header ->
    lower (strip header) = header ->
    passthrough header = true ->
    body <> [] ->
    Forall (fun line => is_fence_line line = false) body ->
    rstrip closing = fence ->
    verbatim_doc rest ->
    verbatim_doc (opening :: body ++ closing :: rest).

(** A fenced block as [format_str] prints it. *)
Definition render (header body : str) : str :=
  join [nl] [fence ++ header; body; fence].

(** A formatter that returns its own output unchanged. *)
Definition idempotent (f : str -> result str) : Prop :=
  forall src out, f src = Ok out -> f out = Ok out.

(** A line as the scanner stores it in a fence: right-trimmed, without
    line ends, not a marker. *)
Definition clean_line (line : str) : Prop :=
  rstrip line = line /\ ~ In nl line /\ ~ In cr line /\
  startswith fence line = false.

(** The lines that the scanner reads back from a fence body. *)
Definition reread_lines (body : str) : list str :=
  map rstrip (readlines (universal_newlines (body ++ [nl]))).

(** The output of the formatter [f] on the source [src] survives the
    rewrite: read back from the file, its right-trimmed form holds no
    marker line and is formatted to the same right-trimmed text. *)
Definition survives (f : str -> result str) (src : str) : Prop :=
  forall out,
    f src = Ok out ->
    Forall (fun line => startswith fence line = false)
           (reread_lines (rstrip out)) /\
    exists out',
      f (join [nl] (reread_lines (rstrip out))) = Ok out' /\
      rstrip out' = rstrip out.

(** The same of a fenced block, given as its code and its header, and
    of the formatter that [format_str] calls under that header; nothing
    is asked of a block that no formatter takes. *)
Definition block_survives (r_docker_image : str) (block : str * str) : Prop :=
  if routed_py (snd block) then survives black_format_str (fst block)
  else if routed_r (snd block)
       then survives (styler r_docker_image) (fst block)
  else True.

(** The fenced blocks that the loop of [format_file] closes on [lines],
    from a state of the scanner: each block as the code and the header
    that the loop gives to [format_str]. *)
Fixpoint blocks_from (in_fence : bool) (parameters : option str)
    (fenced lines : list str) : list (str * str) :=
  match lines with
  | [] => []
  | line :: rest =>
      let line := rstrip line in
      if startswith fence line then
        if in_fence then
          match parameters with
          | None => []
          | Some p => (join [nl] fenced, p) :: blocks_from false None [] rest
          end
        else blocks_from true (Some (skipn 3 (strip line))) fenced rest
      else if in_fence then blocks_from in_fence parameters (fenced ++ [line]) rest
      else blocks_from in_fence parameters fenced rest
  end.

(** The fenced blocks of a file that [format_file] closes. *)
Definition file_blocks (content : str) : list (str * str) :=
  blocks_from false None [] (readlines (universal_newlines content)).

(** [format_str] returns on the block. *)
Definition block_formats (r_docker_image : str) (block : str * str) : Prop :=
  exists text, format_str (fst block) (snd block) r_docker_image = Ok text.

(** One entry of [final_lines] that the scanner reads back as it is: a
    plain line, or a block whose body comes back from the formatter
    unchanged. *)
Definition block_unit (r_docker_image : str) (u : str) : Prop :=
  exists header body,
    u = render header body /\
    lower (strip header) = header /\
    ~ In nl header /\ ~ In cr header /\
    Forall (fun line => startswith fence line = false) (reread_lines body) /\
    format_str (join [nl] (reread_lines body)) header r_docker_image = Ok u.

Definition unit_ok (r_docker_image : str) (u : str) : Prop :=
  clean_line u \/ block_unit r_docker_image u.

(** The text of a file whose lines are [units]. *)
Definition text_of (units : list str) : str :=
  List.concat (map (fun u => u ++ [nl]) units).

(** What holds of the scanner's state on the lines of a file. *)
Definition scanner_inv (r_docker_image : str) (st : fence_state) : Prop :=
  Forall (unit_ok r_docker_image) (final_lines st) /\
  Forall clean_line (fenced_lines st) /\
  (is_in_fence st = false -> fenced_lines st = []) /\
  (is_in_fence st = true ->
   exists header,
     fence_parameters st = Some header /\ ~ In nl header /\ ~ In cr header).

(** The text without its whitespace. *)
Definition without_space (s : str) : str :=
  filter (fun c => negb (is_space c)) s.

(** ** Collaborators and files for the examples *)

(** A formatter that returns the source as it is. *)
Definition unformatted (src : str) : result str := Ok src.

(** A formatter that prints [out] whatever it reads. *)
Definition always (out : str) (src : str) : result str := Ok out.

(** A formatter that rejects the source [bad] and returns any other
    source as it is. *)
Definition rejecting (bad : str) (src : str) : result str :=
  if str_eqb src bad then Err InvalidInput else Ok src.

(** A parser that returns the elements [ast]. *)
Definition parsed_as (ast : list elt) (mark : str) : list elt := ast.

(** The file whose lines are [lines], each ended by a newline. *)
Definition file_of (lines : list string) : str := text_of (map py lines).

Definition no_files : filesystem := fun _ => None.

(** A document with two blocks of the group [a], whose headers differ
    in letter case, around a paragraph and a block without a name. *)
Definition sample_ast : list elt :=
  [ mk_elt (py "block_code") (Some (py "Py?example=A")) (py "x = 1");
    mk_elt (py "paragraph") None [];
    mk_elt (py "block_code") None (py "plain");
    mk_elt (py "block_code") (Some (py "py?example=a")) (py "print(x)") ].



(** A file with a Python fence, an R fence and a shell fence. *)
Definition sample_file : str :=
  file_of [ "Some text"; "```PY"; "x=1  "; "```"; "```r"; "y<-1"; "```";
            "```Bash"; "ls"; "```"; " "; " " ]%string.

Definition sample_file_rewritten : str :=
  file_of [ "Some text"; "```py"; "x=1"; "```"; "```r"; "y<-1"; "```";
            "```bash"; "ls"; "```" ]%string.

(** A formatter that puts spaces around the equals sign of [x=1] and
    prints a marker line on any other source. *)
Definition tidy (src : str) : result str :=
  if str_eqb src (py "x=1") || str_eqb src (py "x = 1")
  then Ok (py "x = 1" ++ [nl])
  else Ok (fence ++ [nl]).

(** A formatter that ends the source with a newline. *)
Definition newline_ended (src : str) : result str := Ok (src ++ [nl]).

Definition sample_file_tidied : str :=
  file_of [ "Some text"; "```py"; "x = 1"; "```"; "```r"; "y<-1"; "```";
            "```bash"; "ls"; "```" ]%string.

(** Two files, the first with a fence that black rejects. *)
Definition sample_files : filesystem :=
  fs_write (fs_write no_files (py "b.md") (file_of ["x  "]%string))
           (py "a.md") (file_of ["```py"; "("; "```"]%string).

(** ** The rest of tests/test_samples.py *)




(** [Path.exists], [Path.is_file], [Path.is_dir] and
    [path.glob("**/*.md")] on the file tree of the run. *)
Variable path_exists : str -> bool.
Variable path_is_file : str -> bool.
Variable path_is_dir : str -> bool.
Variable path_glob : str -> list str.

(** The loop of [_expand_paths], from the list [all_paths] gathered so
    far. *)
Fixpoint expand_paths_from (all_paths paths : list str) : list str :=
  match paths with
  | [] => all_paths
  | path :: rest =>
      if negb (path_exists path) then expand_paths_from all_paths rest
      else if path_is_file path
           then expand_paths_from (all_paths ++ [path]) rest
      else if path_is_dir path
           then expand_paths_from (all_paths ++ path_glob path) rest
      else expand_paths_from all_paths rest
  end.

Definition _expand_paths (paths : list str) : list str :=
  expand_paths_from [] paths.

(** [block.options.get("skip", ["false"])[0].lower()] *)
Definition skip_value (block : CodeBlock) : result str :=
  match dict_get (py "skip") (options block) with
  | None => Ok (lower (py "false"))
  | Some [] => Err IndexError
  | Some (value :: _) => Ok (lower value)
  end.

(** The list [run_blocks] of [pytest_generate_tests]: the blocks that
    are not labeled [skip]. *)
Fixpoint run_blocks (all_blocks : list CodeBlock) : result (list CodeBlock) :=
  match all_blocks with
  | [] => Ok []
  | block :: rest =>
      value <- skip_value block ;;
      kept <- run_blocks rest ;;
      Ok (if negb (str_eqb value (py "true")) then block :: kept else kept)
  end.

(** The blocks that [pytest_generate_tests] gives to
    [test_python_code_block]. *)
Definition python_code_block_params (languages : list str)
    (blocks : list CodeBlock) : list CodeBlock :=
  if match languages with [] => true | _ :: _ => false end
     || mem (py "python") languages
  then filter (fun block => startswith (py "py") (language block)) blocks
  else [mk_block (py "python") (py "1 + 1") [] []].

(** The blocks that [pytest_generate_tests] gives to
    [test_r_code_block]. *)
Definition r_code_block_params (languages : list str)
    (blocks : list CodeBlock) : list CodeBlock :=
  if match languages with [] => true | _ :: _ => false end
     || mem (py "r") languages
  then filter (fun block => str_eqb (language block) (py "r")) blocks
  else [mk_block (py "r") (py "1 + 1") [] []].

(** ** More vocabulary *)

Definition is_block_code (e : elt) : bool :=
  str_eqb (elt_type e) (py "block_code").

(** What one path gives to [_expand_paths]. *)
Definition expanded (path : str) : list str :=
  if negb (path_exists path) then []
  else if path_is_file path then [path]
  else if path_is_dir path then path_glob path
  else [].

(** A parser that reads the empty text as the sample document and any
    other text as its fenced blocks alone. *)
Definition sample_parser_code_only (mark : str) : list elt :=
  if is_empty mark then sample_ast else filter is_block_code sample_ast.


(** The text with [line_end] in the place of every newline. *)
Definition with_line_end (line_end : str) (s : str) : str :=
  flat_map (fun c => if Ascii.eqb c nl then line_end else [c]) s.

(** [format_file] from the path: [open(path, "rt")], then the loop on
    the text of the file.  The file system holds the text of each file,
    so a file whose bytes do not decode is outside the model. *)
Definition format_file_at (fs : filesystem) (path r_docker_image : str)
  : result str :=
  content <- open_rt fs path ;;
  format_file content r_docker_image.

(** A file that the command has written and that [format_file] maps to
    what was printed into it. *)
Definition settled (r_docker_image : str) (fs : filesystem) (filename : str)
  : Prop :=
  exists output,
    fs filename = Some (print output) /\
    format_file (print output) r_docker_image = Ok output.

(** What [parse_qs] promises for every key. *)
Definition values_nonempty : Prop :=
  forall query key, dict_get key (parse_qs query) <> Some [].

(** Propositional steps, on a context without the collaborators that
    the statement does not mention. *)
Ltac only_what_is_used :=
  try clear path_glob; try clear path_is_dir;
  try clear path_is_file; try clear path_exists;
  try clear markdown; try clear parse_qs;
  try clear styler; try clear black_format_str.

Ltac prop := only_what_is_used; tauto.

(** * Properties *)

(** ** Characters and text *)

Lemma str_eqb_eq (a b : str) : str_eqb a b = true <-> a = b.
Proof.
  unfold str_eqb. destruct (list_eq_dec ascii_dec a b); split; intros; congruence.
Qed.

Lemma str_eqb_refl (a : str) : str_eqb a a = true.
Proof. now apply str_eqb_eq. Qed.

Lemma str_eqb_neq (a b : str) : str_eqb a b = false <-> a <> b.
Proof.
  unfold str_eqb. destruct (list_eq_dec ascii_dec a b); split; intros; congruence.
Qed.

Lemma str_eqb_sym (a b : str) : str_eqb a b = str_eqb b a.
Proof.
  unfold str_eqb.
  destruct (list_eq_dec ascii_dec a b), (list_eq_dec ascii_dec b a); congruence.
Qed.

Lemma is_empty_true (s : str) : is_empty s = true <-> s = [].
Proof. destruct s; simpl; split; congruence. Qed.

Lemma is_empty_false (s : str) : is_empty s = false <-> s <> [].
Proof. destruct s; simpl; split; congruence. Qed.

Lemma ascii_cases (P : ascii -> Prop) :
  (forall b0 b1 b2 b3 b4 b5 b6 b7, P (Ascii b0 b1 b2 b3 b4 b5 b6 b7)) ->
  forall c, P c.
Proof. intros H c. destruct c. apply H. Qed.

Ltac by_cases_on_char c :=
  pattern c; apply ascii_cases;
  intros [|] [|] [|] [|] [|] [|] [|] [|]; vm_compute; try reflexivity;
  try discriminate; auto.

Lemma is_space_lower_char c : is_space (lower_char c) = is_space c.
Proof. by_cases_on_char c. Qed.

Lemma lower_char_idem c : lower_char (lower_char c) = lower_char c.
Proof. by_cases_on_char c. Qed.

Lemma lower_idem s : lower (lower s) = lower s.
Proof.
  unfold lower. rewrite map_map. apply map_ext. apply lower_char_idem.
Qed.

Lemma lower_app a b : lower (a ++ b) = lower a ++ lower b.
Proof. apply map_app. Qed.

Lemma rstrip_cons c t :
  rstrip (c :: t) =
  match rstrip t with
  | [] => if is_space c then [] else [c]
  | r => c :: r
  end.
Proof. reflexivity. Qed.

Lemma rstrip_nil_iff s : rstrip s = [] <-> forallb is_space s = true.
Proof.
  induction s as [|c t IH]; simpl.
  - prop.
  - destruct (rstrip t) eqn:E.
    + destruct (is_space c); simpl.
      * split; intros _; [now apply IH | reflexivity].
      * split; discriminate.
    + split; [discriminate|].
      intros H. apply andb_prop in H. destruct H as [_ H].
      apply IH in H. discriminate.
Qed.

Lemma rstrip_app_nonblank a b :
  rstrip b <> [] -> rstrip (a ++ b) = a ++ rstrip b.
Proof.
  intros H. induction a as [|c a IH]; simpl; [reflexivity|].
  rewrite IH. destruct (a ++ rstrip b) eqn:E; [|reflexivity].
  apply app_eq_nil in E. prop.
Qed.

Lemma rstrip_app_blank a b : rstrip b = [] -> rstrip (a ++ b) = rstrip a.
Proof.
  intros H. induction a as [|c a IH]; simpl; [assumption|].
  now rewrite IH.
Qed.

Lemma rstrip_idem s : rstrip (rstrip s) = rstrip s.
Proof.
  induction s as [|c t IH]; [reflexivity|].
  rewrite rstrip_cons. destruct (rstrip t) as [|d r] eqn:E.
  - destruct (is_space c) eqn:S; [reflexivity|].
    simpl. now rewrite S.
  - rewrite rstrip_cons, IH. reflexivity.
Qed.

Lemma rstrip_snoc_nl s : rstrip (s ++ [nl]) = rstrip s.
Proof. now apply rstrip_app_blank. Qed.

Lemma rstrip_fixed_nonblank s : rstrip s = s -> s <> [] -> rstrip s <> [].
Proof. congruence. Qed.

Lemma rstrip_app_fixed a b :
  rstrip b = b -> b <> [] -> rstrip (a ++ b) = a ++ b.
Proof.
  intros H Hb. rewrite rstrip_app_nonblank by congruence. now rewrite H.
Qed.

(** [rstrip] cuts a run of whitespace off the end. *)
Lemma rstrip_split s :
  exists t, s = rstrip s ++ t /\ forallb is_space t = true.
Proof.
  induction s as [|c s IH].
  - now exists [].
  - destruct IH as (t & Hs & Ht). rewrite rstrip_cons.
    destruct (rstrip s) as [|d r] eqn:E.
    + destruct (is_space c) eqn:S.
      * exists (c :: t). simpl in *. rewrite S, Ht. now rewrite Hs at 1.
      * exists t. simpl in *. split; [now rewrite Hs at 1 | assumption].
    + exists t. split; [|assumption]. simpl. now rewrite Hs at 1.
Qed.

Lemma rstrip_In c s : In c (rstrip s) -> In c s.
Proof.
  intros H. destruct (rstrip_split s) as (t & Hs & _).
  rewrite Hs. apply in_or_app. now left.
Qed.

(** The right-trimmed text does not end in whitespace. *)
Lemma rstrip_last s a c : rstrip s = a ++ [c] -> is_space c = false.
Proof.
  intros H. assert (R : rstrip (a ++ [c]) = a ++ [c]).
  { rewrite <- H. apply rstrip_idem. }
  destruct (is_space c) eqn:S; [|reflexivity].
  rewrite rstrip_app_blank in R by (simpl; now rewrite S).
  pose proof (rstrip_split a) as (t & Ha & _).
  apply (f_equal (@List.length ascii)) in R, Ha.
  rewrite length_app in *. simpl in *. lia.
Qed.

Lemma rstrip_lower s : rstrip (lower s) = lower (rstrip s).
Proof.
  induction s as [|c s IH]; [reflexivity|].
  change (lower (c :: s)) with (lower_char c :: lower s).
  rewrite !rstrip_cons, IH, is_space_lower_char.
  destruct (rstrip s); simpl; [destruct (is_space c)|]; reflexivity.
Qed.

Lemma lstrip_lower s : lstrip (lower s) = lower (lstrip s).
Proof.
  induction s as [|c s IH]; [reflexivity|].
  simpl. rewrite is_space_lower_char, IH.
  now destruct (is_space c).
Qed.

Lemma strip_lower s : strip (lower s) = lower (strip s).
Proof. unfold strip. now rewrite lstrip_lower, rstrip_lower. Qed.

Lemma lstrip_head s :
  lstrip s = [] \/ exists c t, lstrip s = c :: t /\ is_space c = false.
Proof.
  induction s as [|c s IH]; simpl; [now left|].
  destruct (is_space c) eqn:S; [assumption|].
  right. now exists c, s.
Qed.

Lemma lstrip_rstrip_lstrip s : lstrip (rstrip (lstrip s)) = rstrip (lstrip s).
Proof.
  destruct (lstrip_head s) as [E | (c & t & E & S)]; rewrite E; [reflexivity|].
  rewrite rstrip_cons. destruct (rstrip t); rewrite ?S; simpl; now rewrite S.
Qed.

Lemma strip_idem s : strip (strip s) = strip s.
Proof.
  unfold strip. now rewrite lstrip_rstrip_lstrip, rstrip_idem.
Qed.

Lemma rstrip_strip s : rstrip (strip s) = strip s.
Proof. apply rstrip_idem. Qed.

(** The header that [format_str] prints is a fixed point of its own
    normalisation. *)
Lemma header_canonical h : lower (strip (lower (strip h))) = lower (strip h).
Proof. now rewrite strip_lower, strip_idem, lower_idem. Qed.

Lemma rstrip_header h : rstrip (lower (strip h)) = lower (strip h).
Proof. now rewrite rstrip_lower, rstrip_strip. Qed.

Lemma rstrip_fence_app h : rstrip h = h -> rstrip (fence ++ h) = fence ++ h.
Proof.
  intros H. destruct h as [|c h].
  - reflexivity.
  - apply rstrip_app_fixed; [assumption | discriminate].
Qed.

Lemma strip_fence_app h : rstrip h = h -> strip (fence ++ h) = fence ++ h.
Proof. intros H. unfold strip. simpl lstrip. now apply rstrip_fence_app. Qed.

Lemma startswith_app p s : startswith p (p ++ s) = true.
Proof.
  induction p as [|c p IH]; simpl; [reflexivity|].
  now rewrite Ascii.eqb_refl.
Qed.

Lemma startswith_split p s : startswith p s = true -> exists t, s = p ++ t.
Proof.
  revert s. induction p as [|c p IH]; intros s H.
  - now exists s.
  - destruct s as [|d s]; [discriminate|]. simpl in H.
    apply andb_prop in H. destruct H as [E H].
    apply Ascii.eqb_eq in E. subst d.
    destruct (IH _ H) as (t & ->). now exists t.
Qed.

(** ** Joining *)

Lemma join_cons sep x y rest :
  join sep (x :: y :: rest) = x ++ sep ++ join sep (y :: rest).
Proof. reflexivity. Qed.

Lemma join_app sep xs ys :
  xs <> [] -> ys <> [] ->
  join sep (xs ++ ys) = join sep xs ++ sep ++ join sep ys.
Proof.
  intros Hx Hy. induction xs as [|x xs IH]; [contradiction|].
  destruct xs as [|x' xs].
  - destruct ys; [contradiction|]. reflexivity.
  - change (join sep ((x :: x' :: xs) ++ ys))
      with (x ++ sep ++ join sep ((x' :: xs) ++ ys)).
    rewrite IH by discriminate. rewrite join_cons.
    now rewrite <- !app_assoc.
Qed.

Lemma join_snoc sep xs y :
  xs <> [] -> join sep (xs ++ [y]) = join sep xs ++ sep ++ y.
Proof. intros H. now rewrite join_app by (assumption || discriminate). Qed.

(** ** The fence scanner *)



Lemma scan_app img st a b :
  scan img st (a ++ b) = (st' <- scan img st a ;; scan img st' b).
Proof.
  revert st. induction a as [|l a IH]; intros st; simpl; [reflexivity|].
  destruct (step img st l); simpl; [apply IH | reflexivity].
Qed.

Lemma step_open img st line :
  is_fence_line line = true ->
  is_in_fence st = false ->
  step img st line =
  Ok (mk_state true (Some (skipn 3 (strip (rstrip line))))
               (fenced_lines st) (final_lines st)).
Proof.
  unfold is_fence_line, step. intros -> ->. reflexivity.
Qed.

Lemma step_close img st line p :
  is_fence_line line = true ->
  is_in_fence st = true ->
  fence_parameters st = Some p ->
  step img st line =
  (block <- format_str (join [nl] (fenced_lines st)) p img ;;
   Ok (mk_state false None [] (final_lines st ++ [block]))).
Proof.
  unfold is_fence_line, step. intros -> -> ->. reflexivity.
Qed.

Lemma step_plain img st line :
  is_fence_line line = false ->
  is_in_fence st = false ->
  step img st line =
  Ok (mk_state false (fence_parameters st) (fenced_lines st)
               (final_lines st ++ [rstrip line])).
Proof.
  unfold is_fence_line, step. intros -> ->.
  now rewrite rstrip_idem.
Qed.

Lemma step_body img st line :
  is_fence_line line = false ->
  is_in_fence st = true ->
  step img st line =
  Ok (mk_state true (fence_parameters st) (fenced_lines st ++ [rstrip line])
               (final_lines st)).
Proof.
  unfold is_fence_line, step. intros -> ->. reflexivity.
Qed.

(** Inside a fence, lines that are no marker pile up in
    [fenced_lines]. *)
Lemma scan_body img p inner out body :
  Forall (fun line => is_fence_line line = false) body ->
  scan img (mk_state true p inner out) body =
  Ok (mk_state true p (inner ++ map rstrip body) out).
Proof.
  intros H. revert inner.
  induction H as [|l body Hl _ IH]; intros inner; simpl.
  - now rewrite app_nil_r.
  - rewrite step_body by (assumption || reflexivity). simpl.
    rewrite IH. now rewrite <- app_assoc.
Qed.

Lemma format_str_passthrough_eq src header img :
  passthrough header = true ->
  format_str src header img =
  Ok (join [nl] [fence ++ lower (strip header); src; fence]).
Proof.
  unfold passthrough, routed_py, routed_r, format_str.
  intros H. apply andb_prop in H. destruct H as [H1 H2].
  apply negb_true_iff in H1, H2. now rewrite H1, H2.
Qed.

Lemma format_str_py src header img :
  routed_py header = true ->
  format_str src header img =
  (out <- black_format_str src ;;
   Ok (join [nl] [fence ++ lower (strip header); rstrip out; fence])).
Proof. unfold routed_py, format_str. now intros ->. Qed.

Lemma format_str_r src header img :
  routed_py header = false ->
  routed_r header = true ->
  format_str src header img =
  (out <- styler img src ;;
   Ok (join [nl] [fence ++ lower (strip header); rstrip out; fence])).
Proof. unfold routed_py, routed_r, format_str. now intros -> ->. Qed.

(** The text that [format_file] returns ends in one newline, and what
    comes before it does not end in whitespace. *)
Lemma finish_shape final :
  exists t, finish final = t ++ [nl] /\ rstrip t = t.
Proof.
  exists (rstrip (join [nl] final)). split; [reflexivity | apply rstrip_idem].
Qed.

Lemma format_file_shape content img output :
  format_file content img = Ok output ->
  exists t, output = t ++ [nl] /\ rstrip t = t.
Proof.
  unfold format_file, format_lines.
  destruct (scan _ _ _); simpl; [|discriminate].
  intros [= <-]. apply finish_shape.
Qed.

Lemma style_command_app done todo img fs :
  style_command (done ++ todo) img fs =
  match style_command done img fs with
  | (fs1, Ok _) => style_command todo img fs1
  | (fs1, Err e) => (fs1, Err e)
  end.
Proof.
  revert fs. induction done as [|f done IH]; intros fs; simpl.
  - reflexivity.
  - destruct (content <- open_rt fs f ;; format_file content img);
      [apply IH | reflexivity].
Qed.

(** C3: a marker line met inside a fence closes it: the block gathered
    so far goes through [format_str] into the output and the state is
    reset; no fence opens inside a fence.  Outside a fence a marker
    line closes nothing: it opens a fence and emits nothing. *)
Theorem marker_in_fence_closes img st line p :
  is_fence_line line = true ->
  is_in_fence st = true ->
  fence_parameters st = Some p ->
  step img st line =
  (block <- format_str (join [nl] (fenced_lines st)) p img ;;
   Ok (mk_state false None [] (final_lines st ++ [block])))
  /\ (forall st', step img st line = Ok st' ->
        is_in_fence st' = false /\ fence_parameters st' = None /\
        fenced_lines st' = [])
  /\ (forall outside,
        is_in_fence outside = false ->
        step img outside line =
        Ok (mk_state true (Some (skipn 3 (strip (rstrip line))))
                     (fenced_lines outside) (final_lines outside))).
Proof.
  intros Hl Hin Hp. split; [|split].
  - now apply step_close.
  - intros st'. rewrite (step_close img st line Hl Hin Hp).
    destruct (format_str _ _ _); simpl; [|discriminate].
    intros [= <-]. auto.
  - intros outside Hout. now apply step_open.
Qed.

(** C4: when the file ends inside a fence that was opened after the
    lines [pre], the result is the one of [pre] alone: the header and
    the body of the open fence leave no trace and raise nothing. *)
Theorem unterminated_fence_dropped content img pre opening body st :
  readlines (universal_newlines content) = pre ++ opening :: body ->
  scan img init_state pre = Ok st ->
  is_in_fence st = false ->
  is_fence_line opening = true ->
  Forall (fun line => is_fence_line line = false) body ->
  format_file content img = Ok (finish (final_lines st))
  /\ format_file content img = format_lines img pre.
Proof.
  intros Hlines Hpre Hout Hopen Hbody.
  unfold format_file, format_lines.
  rewrite Hlines, scan_app, Hpre. simpl.
  rewrite step_open by assumption. simpl.
  rewrite scan_body by assumption. simpl. auto.
Qed.

(** C5, as the code has it: a header that no formatter takes gets the
    code back unchanged between the markers, and the opening marker
    carries the stripped, lowercased header. *)
Theorem passthrough_wraps_lowercased_header src header img :
  passthrough header = true ->
  format_str src header img =
  Ok (join [nl] [fence ++ lower (strip header); src; fence]).
Proof.
  unfold passthrough, routed_py, routed_r. intros H.
  apply andb_prop in H. destruct H as [Hpy Hr].
  apply negb_true_iff in Hpy, Hr.
  unfold format_str. rewrite Hpy, Hr. reflexivity.
Qed.

(** C8, as the code has it: when black rejects the code of a block,
    its error leaves [format_str], [format_file] and the command
    unchanged; the file is not written, the files before it have been
    written, and the files after it are not processed. *)
Theorem format_error_aborts_batch
    img done filename todo fs fs1 content pre closing rest st header e :
  style_command done img fs = (fs1, Ok tt) ->
  fs1 filename = Some content ->
  readlines (universal_newlines content) = pre ++ closing :: rest ->
  scan img init_state pre = Ok st ->
  is_in_fence st = true ->
  fence_parameters st = Some header ->
  routed_py header = true ->
  is_fence_line closing = true ->
  black_format_str (join [nl] (fenced_lines st)) = Err e ->
  format_str (join [nl] (fenced_lines st)) header img = Err e
  /\ format_file content img = Err e
  /\ style_command (done ++ filename :: todo) img fs = (fs1, Err e).
Proof.
  intros Hdone Hfile Hlines Hpre Hin Hp Hpy Hclose Hblack.
  assert (F : format_str (join [nl] (fenced_lines st)) header img = Err e).
  { rewrite format_str_py by assumption. now rewrite Hblack. }
  assert (G : format_file content img = Err e).
  { unfold format_file, format_lines.
    rewrite Hlines, scan_app, Hpre. simpl.
    rewrite step_close with (p := header) by assumption. now rewrite F. }
  split; [assumption|]. split; [assumption|].
  rewrite style_command_app, Hdone. simpl.
  unfold open_rt. rewrite Hfile. simpl. now rewrite G.
Qed.

(** What the command leaves in a file that it rewrites: the result of
    [format_file] and one more newline. *)
Lemma style_command_written img filename fs content output :
  fs filename = Some content ->
  format_file content img = Ok output ->
  exists fs',
    style_command [filename] img fs = (fs', Ok tt) /\
    fs' filename = Some (output ++ [nl]).
Proof.
  intros Hfile Hfmt. simpl. unfold open_rt. rewrite Hfile. simpl.
  rewrite Hfmt. eexists. split; [reflexivity|].
  unfold fs_write, print. now rewrite str_eqb_refl.
Qed.

(** The sibling command writes the text as it is. *)
Lemma links_write_keeps_text fs filename fixed_md :
  links_write fs filename fixed_md filename = Some fixed_md.
Proof. unfold links_write, fs_write. now rewrite str_eqb_refl. Qed.

(** ** The block extractor *)

Lemma mem_In x l : mem x l = true <-> In x l.
Proof.
  unfold mem. rewrite existsb_exists. split.
  - intros (y & Hy & E). apply str_eqb_eq in E. now subst.
  - intros H. exists x. split; [assumption | apply str_eqb_refl].
Qed.

Lemma mem_false x l : mem x l = false <-> ~ In x l.
Proof.
  rewrite <- mem_In. destruct (mem x l); split; intros; congruence.
Qed.

Lemma first_occurrences_from_In seen l x :
  In x (first_occurrences_from seen l) <-> In x l /\ ~ In x seen.
Proof.
  revert seen. induction l as [|y l IH]; intros seen; simpl.
  - prop.
  - destruct (mem y seen) eqn:M.
    + apply mem_In in M. rewrite IH. split.
      * prop.
      * intros [[-> | H] Hs]; [contradiction | prop].
    + apply mem_false in M. simpl. rewrite IH. simpl. split.
      * intros [-> | [H Hs]]; prop.
      * intros [[-> | H] Hs]; [prop|].
        destruct (list_eq_dec ascii_dec y x); [prop|]. right. prop.
Qed.

Lemma first_occurrences_from_NoDup seen l :
  NoDup (first_occurrences_from seen l).
Proof.
  revert seen. induction l as [|y l IH]; intros seen; simpl.
  - constructor.
  - destruct (mem y seen); [apply IH|].
    constructor; [|apply IH].
    rewrite first_occurrences_from_In. simpl. prop.
Qed.

Lemma first_occurrences_from_snoc seen l x :
  first_occurrences_from seen (l ++ [x]) =
  first_occurrences_from seen l ++
  (if mem x seen || mem x l then [] else [x]).
Proof.
  revert seen. induction l as [|y l IH]; intros seen; simpl.
  - destruct (mem x seen); simpl; reflexivity.
  - destruct (mem y seen) eqn:M.
    + rewrite IH. f_equal.
      destruct (mem x seen) eqn:Mx; [reflexivity|]. simpl.
      unfold mem at 2. simpl. fold (mem x l).
      destruct (str_eqb x y) eqn:E; [|reflexivity].
      apply str_eqb_eq in E. congruence.
    + rewrite IH. simpl. f_equal. f_equal.
      unfold mem. simpl. fold (mem x seen) (mem x l).
      destruct (str_eqb x y), (mem x seen), (mem x l); reflexivity.
Qed.

Lemma first_occurrences_In l x : In x (first_occurrences l) <-> In x l.
Proof. unfold first_occurrences. rewrite first_occurrences_from_In. simpl. prop. Qed.

Lemma first_occurrences_NoDup l : NoDup (first_occurrences l).
Proof. apply first_occurrences_from_NoDup. Qed.

Lemma first_occurrences_snoc l x :
  first_occurrences (l ++ [x]) =
  first_occurrences l ++ (if mem x l then [] else [x]).
Proof. unfold first_occurrences. now rewrite first_occurrences_from_snoc. Qed.

Lemma block_name_members name blocks b :
  In b (members name blocks) -> block_name b = name /\ In b blocks.
Proof.
  unfold members. rewrite filter_In. intros [H E].
  apply str_eqb_eq in E. prop.
Qed.

Lemma group_names_In blocks name :
  In name (group_names blocks) <->
  name <> [] /\ exists b, In b blocks /\ block_name b = name.
Proof.
  unfold group_names. rewrite first_occurrences_In, filter_In, in_map_iff.
  split.
  - intros [(b & E & H) Hn]. split; [|now exists b].
    intros ->. discriminate.
  - intros [Hn (b & H & E)]. split; [now exists b|].
    apply negb_true_iff. now apply is_empty_false.
Qed.

Lemma members_nonempty blocks name :
  In name (group_names blocks) -> members name blocks <> [].
Proof.
  rewrite group_names_In. intros [_ (b & H & E)] N.
  assert (I : In b (members name blocks)).
  { unfold members. rewrite filter_In. split; [assumption|].
    now apply str_eqb_eq. }
  rewrite N in I. contradiction.
Qed.

Lemma members_absent blocks name :
  ~ In name (map block_name blocks) -> members name blocks = [].
Proof.
  intros H. unfold members. induction blocks as [|b blocks IH]; [reflexivity|].
  simpl in *. destruct (str_eqb (block_name b) name) eqn:E.
  - apply str_eqb_eq in E. prop.
  - apply IH. prop.
Qed.

Lemma members_snoc name blocks b :
  members name (blocks ++ [b]) =
  members name blocks ++ (if str_eqb (block_name b) name then [b] else []).
Proof. unfold members. now rewrite filter_app. Qed.

Lemma unnamed_snoc blocks b :
  unnamed (blocks ++ [b]) =
  unnamed blocks ++ (if is_empty (block_name b) then [b] else []).
Proof. unfold unnamed. now rewrite filter_app. Qed.

Lemma group_names_snoc blocks b :
  group_names (blocks ++ [b]) =
  group_names blocks ++
  (if is_empty (block_name b) || mem (block_name b) (group_names blocks)
   then [] else [block_name b]).
Proof.
  unfold group_names. rewrite map_app, filter_app. simpl.
  destruct (is_empty (block_name b)) eqn:E; simpl.
  - now rewrite !app_nil_r.
  - rewrite first_occurrences_snoc. f_equal.
    set (l := filter _ _).
    assert (M : mem (block_name b) l = mem (block_name b) (first_occurrences l)).
    { destruct (mem (block_name b) l) eqn:M1; symmetry.
      - apply mem_In. apply first_occurrences_In. now apply mem_In.
      - apply mem_false. rewrite first_occurrences_In. now apply mem_false. }
    now rewrite M.
Qed.

(** Appending to the group of [name] in a dict whose keys are the
    names [keys], each once. *)
Lemma dict_append_groups (f : str -> list CodeBlock) keys name b :
  NoDup keys ->
  dict_append name b (map (fun k => (k, f k)) keys) =
  map (fun k => (k, if str_eqb k name then f k ++ [b] else f k)) keys
  ++ (if mem name keys then [] else [(name, [b])]).
Proof.
  intros N. induction N as [|k keys Hk N IH]; simpl; [reflexivity|].
  unfold mem. simpl. fold (mem name keys).
  destruct (str_eqb k name) eqn:E.
  - apply str_eqb_eq in E. subst k. rewrite str_eqb_refl. simpl.
    rewrite app_nil_r. f_equal. apply map_ext_in.
    intros k Hin. destruct (str_eqb k name) eqn:E; [|reflexivity].
    apply str_eqb_eq in E. congruence.
  - assert (E' : str_eqb name k = false).
    { apply str_eqb_neq. apply str_eqb_neq in E. congruence. }
    rewrite E'. simpl. now rewrite IH.
Qed.

(** The state of the first loop after the blocks [blocks]. *)
Lemma fold_add_block blocks :
  fold_left add_block blocks (mk_extraction [] []) =
  mk_extraction (map (fun name => (name, members name blocks))
                     (group_names blocks))
                (unnamed blocks).
Proof.
  induction blocks as [|b blocks IH] using rev_ind; [reflexivity|].
  rewrite fold_left_app, IH. simpl. unfold add_block. simpl.
  rewrite unnamed_snoc, group_names_snoc.
  destruct (is_empty (block_name b)) eqn:E; simpl.
  - rewrite app_nil_r. f_equal. apply map_ext_in. intros name Hin.
    apply group_names_In in Hin. destruct Hin as [Hn _].
    rewrite members_snoc.
    destruct (str_eqb (block_name b) name) eqn:N; [|now rewrite app_nil_r].
    apply str_eqb_eq in N. apply is_empty_true in E. congruence.
  - rewrite app_nil_r. f_equal.
    rewrite dict_append_groups by apply first_occurrences_NoDup.
    rewrite map_app. f_equal.
    + apply map_ext. intros name. rewrite members_snoc.
      rewrite (str_eqb_sym name (block_name b)).
      destruct (str_eqb (block_name b) name); [reflexivity | now rewrite app_nil_r].
    + destruct (mem (block_name b) (group_names blocks)) eqn:M; [reflexivity|].
      simpl. rewrite members_snoc, str_eqb_refl.
      rewrite members_absent; [reflexivity|].
      apply mem_false in M. intros I. apply M. apply group_names_In.
      split; [now apply is_empty_false|].
      apply in_map_iff in I. destruct I as (b' & Eb & Hb). now exists b'.
Qed.

Lemma block_of_location path e : location (block_of path e) = path.
Proof.
  unfold block_of. now destruct (partition question _).
Qed.

Lemma document_blocks_location path ast :
  Forall (fun b => location b = path) (document_blocks path ast).
Proof.
  unfold document_blocks. apply Forall_map, Forall_forall.
  intros e _. apply block_of_location.
Qed.

(** [parse_header] computes the fields of [block_of]; it fails only on
    a parser that returns a key without a value. *)
Lemma parse_header_result path e :
  match parse_header (elt_info e) with
  | Ok (lang, opts, name) =>
      let b := block_of path e in
      lang = language b /\ opts = options b /\ name = block_name b
  | Err _ => ~ example_values_nonempty
  end.
Proof.
  unfold parse_header, block_of, block_name, example_name.
  destruct (partition question _) as [lang [|c opts]]; simpl; [auto|].
  destruct (dict_get (py "example") (parse_qs (c :: opts)))
    as [[|name v]|] eqn:E; simpl; auto.
  intros H. exact (H _ E).
Qed.

Lemma visit_result path acc e :
  match visit path acc e with
  | Ok acc' =>
      acc' = if str_eqb (elt_type e) (py "block_code")
             then add_block acc (block_of path e) else acc
  | Err _ => ~ example_values_nonempty
  end.
Proof.
  unfold visit. destruct (str_eqb (elt_type e) (py "block_code")); [|reflexivity].
  pose proof (parse_header_result path e) as H.
  destruct (parse_header (elt_info e)) as [[[lang opts] name]|]; simpl; [|assumption].
  destruct H as (-> & -> & ->). unfold add_block.
  assert (B : block_of path e =
              mk_block (language (block_of path e)) (elt_text e)
                       (options (block_of path e)) path).
  { unfold block_of. now destruct (partition question _). }
  rewrite <- B. now destruct (block_name (block_of path e)).
Qed.

Lemma visit_all_result path acc ast :
  match visit_all path acc ast with
  | Ok acc' => acc' = fold_left add_block (document_blocks path ast) acc
  | Err _ => ~ example_values_nonempty
  end.
Proof.
  revert acc. induction ast as [|e ast IH]; intros acc; simpl; [reflexivity|].
  pose proof (visit_result path acc e) as H.
  destruct (visit path acc e) as [acc1|]; simpl; [|assumption].
  subst acc1. unfold document_blocks. simpl.
  destruct (str_eqb (elt_type e) (py "block_code")); simpl; apply IH.
Qed.

Lemma append_merged_result path groups blocks :
  Forall (fun g => snd g <> [] /\ Forall (fun b => location b = path) (snd g))
         groups ->
  append_merged path groups blocks =
  Ok (blocks ++ map (fun g => synthesized (snd g)) groups).
Proof.
  intros H. revert blocks.
  induction H as [|[name g] groups [Hne Hloc] _ IH]; intros blocks; simpl.
  - now rewrite app_nil_r.
  - destruct g as [|first g]; [contradiction|]. simpl in *.
    rewrite IH, <- app_assoc. simpl. unfold synthesized.
    inversion Hloc; subst. reflexivity.
Qed.

Lemma members_location path ast name :
  Forall (fun b => location b = path) (members name (document_blocks path ast)).
Proof.
  apply Forall_forall. intros b H. apply block_name_members in H.
  destruct H as [_ H].
  pose proof (document_blocks_location path ast) as F.
  rewrite Forall_forall in F. now apply F.
Qed.

(** The list that [get_top_level_block_codes] returns. *)
Lemma extraction_structure mark path :
  match get_top_level_block_codes mark path with
  | Ok blocks =>
      let found := document_blocks path (markdown mark) in
      blocks = unnamed found
               ++ map (fun name => synthesized (members name found))
                      (group_names found)
  | Err _ => ~ example_values_nonempty
  end.
Proof.
  unfold get_top_level_block_codes.
  pose proof (visit_all_result path (mk_extraction [] []) (markdown mark)) as H.
  destruct (visit_all _ _ _) as [acc|]; simpl; [|assumption].
  subst acc. rewrite fold_add_block. simpl.
  rewrite append_merged_result.
  - now rewrite map_map.
  - apply Forall_map, Forall_forall. intros name Hin. simpl. split.
    + now apply members_nonempty.
    + apply members_location.
Qed.

Lemma filter_only (keys : list str) name :
  NoDup keys -> In name keys ->
  filter (fun k => str_eqb k name) keys = [name].
Proof.
  intros N. induction N as [|k keys Hk N IH]; simpl; [contradiction|].
  intros [-> | Hin].
  - rewrite str_eqb_refl. f_equal.
    clear IH. induction keys as [|k keys IH]; [reflexivity|]. simpl.
    destruct (str_eqb k name) eqn:E.
    + apply str_eqb_eq in E. subst. simpl in Hk. prop.
    + apply IH; [simpl in Hk; prop | now inversion N].
  - destruct (str_eqb k name) eqn:E; [|now apply IH].
    apply str_eqb_eq in E. subst. contradiction.
Qed.

Lemma synthesized_name blocks name :
  In name (group_names blocks) ->
  block_name (synthesized (members name blocks)) = name.
Proof.
  intros H. pose proof (members_nonempty _ _ H) as Hne.
  destruct (members name blocks) as [|first g] eqn:E; [contradiction|].
  assert (I : In first (members name blocks)) by (rewrite E; now left).
  apply block_name_members in I. destruct I as [I _].
  unfold synthesized, block_name in *. simpl. assumption.
Qed.

Lemma unnamed_no_group blocks name :
  name <> [] ->
  filter (fun b => str_eqb (block_name b) name) (unnamed blocks) = [].
Proof.
  intros Hne. unfold unnamed.
  induction blocks as [|b blocks IH]; [reflexivity|]. simpl.
  destruct (is_empty (block_name b)) eqn:B; [|assumption]. simpl.
  destruct (str_eqb (block_name b) name) eqn:N; [|assumption].
  apply str_eqb_eq in N. apply is_empty_true in B. congruence.
Qed.

(** C1: each named group yields exactly one block of the result: its
    code is the members' codes, in the order of the scan, with two
    newlines between them, and its language, options and location are
    those of the first member. *)
Theorem named_group_merged mark path name member :
  example_values_nonempty ->
  In member (document_blocks path (markdown mark)) ->
  block_name member = name ->
  name <> [] ->
  exists blocks first others,
    get_top_level_block_codes mark path = Ok blocks /\
    members name (document_blocks path (markdown mark)) = first :: others /\
    filter (fun b => str_eqb (block_name b) name) blocks =
    [mk_block (language first)
              (join [nl; nl] (map code (first :: others)))
              (options first)
              (location first)].
Proof.
  intros W Hin Hname Hne.
  pose proof (extraction_structure mark path) as S.
  destruct (get_top_level_block_codes mark path) as [blocks|]; [|contradiction].
  simpl in S. set (found := document_blocks path (markdown mark)) in *.
  assert (G : In name (group_names found)).
  { apply group_names_In. split; [assumption | now exists member]. }
  pose proof (members_nonempty _ _ G) as M.
  destruct (members name found) as [|first others] eqn:E; [contradiction|].
  exists blocks, first, others. split; [reflexivity|]. split; [reflexivity|].
  rewrite S, filter_app.
  pose proof (unnamed_no_group found Hne) as U.
  rewrite U. simpl.
  assert (F : forall keys, (forall k, In k keys -> In k (group_names found)) ->
            filter (fun b => str_eqb (block_name b) name)
                   (map (fun k => synthesized (members k found)) keys) =
            map (fun k => synthesized (members k found))
                (filter (fun k => str_eqb k name) keys)).
  { induction keys as [|k keys IH]; intros Hk; [reflexivity|]. simpl.
    rewrite synthesized_name by (apply Hk; now left).
    rewrite IH by (intros; apply Hk; now right).
    now destruct (str_eqb k name). }
  rewrite F by auto.
  rewrite filter_only by (apply first_occurrences_NoDup || assumption).
  simpl. now rewrite E.
Qed.

(** C2: the result is the unnamed blocks in document order, then one
    block per group in the order in which the group names first occur;
    its length is the number of unnamed blocks plus the number of
    distinct group names. *)
Theorem unnamed_then_groups mark path :
  example_values_nonempty ->
  let found := document_blocks path (markdown mark) in
  exists blocks,
    get_top_level_block_codes mark path = Ok blocks /\
    blocks = unnamed found
             ++ map (fun name => synthesized (members name found))
                    (group_names found) /\
    NoDup (group_names found) /\
    (forall name, In name (group_names found) <->
                  name <> [] /\ In name (map block_name found)) /\
    List.length blocks =
    List.length (unnamed found) + List.length (group_names found).
Proof.
  intros W found.
  pose proof (extraction_structure mark path) as S.
  destruct (get_top_level_block_codes mark path) as [blocks|]; [|contradiction].
  simpl in S. fold found in S.
  exists blocks. split; [reflexivity|]. split; [assumption|].
  split; [apply first_occurrences_NoDup|]. split.
  - intros name. rewrite group_names_In, in_map_iff.
    split; intros [Hn (b & H1 & H2)]; (split; [assumption|]); exists b; prop.
  - rewrite S, length_app, length_map. reflexivity.
Qed.












(** ** Line ends and lines *)

Lemma universal_newlines_cons c t :
  Ascii.eqb c cr = false ->
  universal_newlines (c :: t) = c :: universal_newlines t.
Proof. intros H. simpl. now rewrite H. Qed.

Lemma universal_newlines_no_cr s : ~ In cr (universal_newlines s).
Proof.
  induction s as [|c t IH]; simpl; [prop|].
  destruct (Ascii.eqb c cr) eqn:E.
  - destruct t as [|d t']; [simpl; intros [H|[]]; discriminate|].
    destruct (Ascii.eqb d nl); [assumption|].
    intros [H|H]; [discriminate | contradiction].
  - intros [H|H]; [|contradiction]. subst c. now rewrite Ascii.eqb_refl in E.
Qed.

Lemma universal_newlines_id s : ~ In cr s -> universal_newlines s = s.
Proof.
  induction s as [|c t IH]; simpl; [reflexivity|]. intros H.
  destruct (Ascii.eqb c cr) eqn:E.
  - apply Ascii.eqb_eq in E. prop.
  - f_equal. apply IH. prop.
Qed.

(** Reading the line ends commutes with cutting the text after a
    character that is no CR. *)
Lemma universal_newlines_app a c b :
  c <> cr ->
  universal_newlines ((a ++ [c]) ++ b) =
  universal_newlines (a ++ [c]) ++ universal_newlines b.
Proof.
  intros Hc. assert (Ec : Ascii.eqb c cr = false) by now apply Ascii.eqb_neq.
  induction a as [|d a IH].
  - simpl. now rewrite Ec.
  - change (((d :: a) ++ [c]) ++ b) with (d :: (a ++ [c]) ++ b).
    change ((d :: a) ++ [c]) with (d :: a ++ [c]).
    cbn [universal_newlines]. destruct (Ascii.eqb d cr).
    + destruct a as [|d' a']; cbn [app] in *.
      * destruct (Ascii.eqb c nl); [exact IH | now rewrite IH].
      * destruct (Ascii.eqb d' nl); [exact IH | now rewrite IH].
    + now rewrite IH.
Qed.

Lemma universal_newlines_ends_nl a :
  exists z, universal_newlines (a ++ [nl]) = z ++ [nl].
Proof.
  induction a as [|d a (z & IH)].
  - now exists [].
  - change ((d :: a) ++ [nl]) with (d :: a ++ [nl]).
    cbn [universal_newlines]. destruct (Ascii.eqb d cr).
    + destruct a as [|d' a']; cbn [app] in *.
      * now exists [].
      * destruct (Ascii.eqb d' nl); [now exists z|].
        exists (nl :: z). now rewrite IH.
    + exists (d :: z). now rewrite IH.
Qed.

Lemma readlines_nil_iff s : readlines s = [] <-> s = [].
Proof.
  destruct s as [|c t]; simpl; [prop|].
  destruct (Ascii.eqb c nl); [split; discriminate|].
  destruct (readlines t); split; discriminate.
Qed.

Lemma readlines_app a b :
  readlines ((a ++ [nl]) ++ b) = readlines (a ++ [nl]) ++ readlines b.
Proof.
  induction a as [|d a IH]; [reflexivity|].
  change (((d :: a) ++ [nl]) ++ b) with (d :: (a ++ [nl]) ++ b).
  change ((d :: a) ++ [nl]) with (d :: a ++ [nl]).
  cbn [readlines]. rewrite IH. destruct (Ascii.eqb d nl); [reflexivity|].
  destruct (readlines (a ++ [nl])) eqn:E; [|reflexivity].
  apply readlines_nil_iff in E. now destruct a.
Qed.

Lemma readlines_single l : ~ In nl l -> readlines (l ++ [nl]) = [l ++ [nl]].
Proof.
  induction l as [|c l IH]; intros H; [reflexivity|].
  change ((c :: l) ++ [nl]) with (c :: l ++ [nl]). cbn [readlines].
  destruct (Ascii.eqb c nl) eqn:E.
  - apply Ascii.eqb_eq in E. subst. simpl in H. prop.
  - rewrite IH by (simpl in H; prop). reflexivity.
Qed.

Lemma readlines_chars s x c : In x (readlines s) -> In c x -> In c s.
Proof.
  revert x. induction s as [|d t IH]; intros x; simpl; [prop|].
  destruct (Ascii.eqb d nl) eqn:E.
  - apply Ascii.eqb_eq in E. subst d.
    intros [<- | H] Hc; [simpl in Hc; prop | right; eauto].
  - destruct (readlines t) as [|l ls].
    + intros [<- | []] Hc. simpl in Hc. prop.
    + intros [<- | H] Hc.
      * destruct Hc as [-> | Hc]; [now left|].
        right. apply (IH l); [now left | assumption].
      * right. apply (IH x); [now right | assumption].
Qed.

(** A line holds a newline at its end only. *)
Lemma readlines_shape s x :
  In x (readlines s) -> exists l, ~ In nl l /\ (x = l \/ x = l ++ [nl]).
Proof.
  revert x. induction s as [|d t IH]; intros x; simpl; [prop|].
  destruct (Ascii.eqb d nl) eqn:E.
  - apply Ascii.eqb_eq in E. subst d. intros [<- | H]; [|auto].
    exists []. simpl. prop.
  - apply Ascii.eqb_neq in E. destruct (readlines t) as [|l0 ls].
    + intros [<- | []]. exists [d]. simpl. split; [intros [H|[]]; congruence | auto].
    + intros [<- | H].
      * destruct (IH l0 (or_introl eq_refl)) as (l & Hl & [-> | ->]);
          exists (d :: l); (split; [simpl; intros [H|H]; congruence | auto]).
      * apply IH. now right.
Qed.

Lemma raw_line_clean content x :
  In x (readlines (universal_newlines content)) ->
  ~ In nl (rstrip x) /\ ~ In cr (rstrip x).
Proof.
  intros H. split.
  - destruct (readlines_shape _ _ H) as (l & Hl & [-> | ->]).
    + intros I. apply rstrip_In in I. contradiction.
    + rewrite rstrip_snoc_nl. intros I. apply rstrip_In in I. contradiction.
  - intros I. apply rstrip_In in I.
    apply (universal_newlines_no_cr content).
    eapply readlines_chars; eassumption.
Qed.

Lemma In_lstrip c s : In c (lstrip s) -> In c s.
Proof.
  induction s as [|d s IH]; simpl; [prop|].
  destruct (is_space d); simpl; prop.
Qed.

Lemma In_strip c s : In c (strip s) -> In c s.
Proof. intros H. apply In_lstrip. now apply rstrip_In in H. Qed.

Lemma In_skipn (c : ascii) n s : In c (skipn n s) -> In c s.
Proof.
  revert s. induction n as [|n IH]; intros s; [auto|].
  destruct s; simpl; [prop|]. intros H. right. now apply IH.
Qed.

Lemma lower_char_nl c : lower_char c = nl -> c = nl.
Proof. by_cases_on_char c. Qed.

Lemma lower_char_cr c : lower_char c = cr -> c = cr.
Proof. by_cases_on_char c. Qed.

Lemma In_lower_nl s : In nl (lower s) -> In nl s.
Proof.
  unfold lower. rewrite in_map_iff. intros (c & E & H).
  apply lower_char_nl in E. now subst.
Qed.

Lemma In_lower_cr s : In cr (lower s) -> In cr s.
Proof.
  unfold lower. rewrite in_map_iff. intros (c & E & H).
  apply lower_char_cr in E. now subst.
Qed.

(** ** Files that pass through unchanged *)

Lemma join_flatten sep xs ys :
  xs <> [] -> join sep (join sep xs :: ys) = join sep (xs ++ ys).
Proof.
  intros H. destruct ys as [|y ys].
  - now rewrite app_nil_r.
  - rewrite join_cons, join_app by (assumption || discriminate). reflexivity.
Qed.

Lemma join_cons_congr sep x us ls :
  (us = [] <-> ls = []) ->
  join sep us = join sep ls ->
  join sep (x :: us) = join sep (x :: ls).
Proof.
  intros E H. destruct us as [|u us], ls as [|l ls]; try reflexivity.
  - destruct E as [E _]. specialize (E eq_refl). discriminate.
  - destruct E as [_ E]. specialize (E eq_refl). discriminate.
  - rewrite !join_cons. now rewrite H.
Qed.

Lemma join_app_congr sep xs us ls :
  (us = [] <-> ls = []) ->
  join sep us = join sep ls ->
  join sep (xs ++ us) = join sep (xs ++ ls).
Proof.
  intros E H. induction xs as [|x xs IH]; [assumption|].
  simpl app. apply join_cons_congr; [|assumption].
  destruct xs; simpl; [assumption | split; discriminate].
Qed.

Lemma render_flat header body :
  body <> [] ->
  render header (join [nl] body) = join [nl] ((fence ++ header) :: body ++ [fence]).
Proof.
  intros H. unfold render.
  change ((fence ++ header) :: body ++ [fence])
    with ([fence ++ header] ++ body ++ [fence]).
  rewrite join_app by (discriminate || now destruct body).
  rewrite join_snoc by assumption. reflexivity.
Qed.

Lemma header_of_opening opening header :
  rstrip opening = fence ++ header ->
  is_fence_line opening = true /\
  skipn 3 (strip (rstrip opening)) = header.
Proof.
  intros H. unfold is_fence_line. rewrite H. split; [apply startswith_app|].
  assert (R : rstrip (fence ++ header) = fence ++ header).
  { rewrite <- H. apply rstrip_idem. }
  unfold strip. replace (lstrip (fence ++ header)) with (fence ++ header)
    by reflexivity.
  now rewrite R.
Qed.

Lemma closing_marker closing : rstrip closing = fence -> is_fence_line closing = true.
Proof. unfold is_fence_line. now intros ->. Qed.

Lemma scan_cons img st line rest :
  scan img st (line :: rest) = (st' <- step img st line ;; scan img st' rest).
Proof. reflexivity. Qed.

Lemma verbatim_scan img lines :
  verbatim_doc lines ->
  forall st,
    is_in_fence st = false ->
    fenced_lines st = [] ->
    exists st' units,
      scan img st lines = Ok st' /\
      is_in_fence st' = false /\
      fenced_lines st' = [] /\
      final_lines st' = final_lines st ++ units /\
      join [nl] units = join [nl] (map rstrip lines) /\
      (units = [] <-> lines = []).
Proof.
  induction 1 as [|line rest Hline _ IH
                 |opening header body closing rest Hop Hcanon Hpass Hne Hbody
                    Hclose _ IH];
    intros st Hout Hfl.
  - exists st, []. rewrite app_nil_r. simpl. prop.
  - rewrite scan_cons, step_plain by assumption. cbn [bind].
    destruct (IH (mk_state false (fence_parameters st) (fenced_lines st)
                           (final_lines st ++ [rstrip line])) eq_refl Hfl)
      as (st' & units & Hs & Hi & Hf & Hfin & Hj & He).
    exists st', (rstrip line :: units). cbn [final_lines] in Hfin.
    rewrite <- app_assoc in Hfin. repeat split; try assumption; try discriminate.
    cbn [map]. apply join_cons_congr; [|assumption].
    rewrite He. destruct rest; simpl; split; congruence.
  - destruct (header_of_opening _ Hop) as [Hfence Hheader].
    rewrite scan_cons, step_open by assumption. cbn [bind].
    rewrite Hheader, Hfl, scan_app, scan_body by assumption.
    cbn [bind app]. rewrite scan_cons.
    rewrite step_close with (p := header) by
        (reflexivity || now apply closing_marker).
    cbn [fenced_lines final_lines].
    rewrite format_str_passthrough_eq by assumption. cbn [bind].
    rewrite Hcanon. fold (render header (join [nl] (map rstrip body))).
    set (block := render header (join [nl] (map rstrip body))).
    destruct (IH (mk_state false None [] (final_lines st ++ [block]))
                 eq_refl eq_refl)
      as (st' & units & Hs & Hi & Hf & Hfin & Hj & He).
    exists st', (block :: units). cbn [final_lines] in Hfin.
    rewrite <- app_assoc in Hfin. repeat split; try assumption; try discriminate.
    unfold block. rewrite render_flat by (now destruct body).
    rewrite join_flatten by discriminate.
    cbn [map]. rewrite map_app. cbn [map]. rewrite Hop, Hclose.
    transitivity (join [nl] (((fence ++ header) :: map rstrip body ++ [fence])
                               ++ map rstrip rest)).
    + apply join_app_congr; [|assumption].
      rewrite He. destruct rest; simpl; split; congruence.
    + f_equal. cbn [app]. now rewrite <- app_assoc.
Qed.

(** C6, as the code has it: a file whose fences are all closed by a
    bare marker, hold at least one line and carry a stripped, lowercase
    header that no formatter takes comes back with its lines
    right-trimmed, its trailing whitespace dropped and one newline at
    its end, and is otherwise unchanged. *)
Theorem verbatim_file_unchanged content img :
  verbatim_doc (readlines (universal_newlines content)) ->
  format_file content img = Ok (normalize content).
Proof.
  intros H. unfold format_file, format_lines, normalize.
  destruct (verbatim_scan img H init_state eq_refl eq_refl)
    as (st' & units & Hs & _ & _ & Hfin & Hj & _).
  rewrite Hs. simpl. simpl in Hfin. unfold finish. now rewrite Hfin, Hj.
Qed.

(** ** Rewriting a rewritten file *)

Lemma text_of_cons u units : text_of (u :: units) = (u ++ [nl]) ++ text_of units.
Proof. reflexivity. Qed.

Lemma text_of_join units :
  units <> [] -> text_of units = join [nl] units ++ [nl].
Proof.
  induction units as [|u units IH]; [contradiction|]. intros _.
  rewrite text_of_cons. destruct units as [|v units]; [now rewrite app_nil_r|].
  rewrite IH by discriminate. rewrite join_cons. now rewrite <- !app_assoc.
Qed.

Lemma text_of_app us vs : text_of (us ++ vs) = text_of us ++ text_of vs.
Proof. unfold text_of. now rewrite map_app, concat_app. Qed.

Lemma clean_line_no_cr_nl u : clean_line u -> ~ In cr (u ++ [nl]).
Proof.
  intros (_ & _ & Hcr & _) H. apply in_app_or in H.
  destruct H as [H | [H | []]]; [contradiction | discriminate].
Qed.

Lemma clean_line_nil : clean_line [].
Proof. repeat split; simpl; prop. Qed.

(** The scanner reads clean lines back as they are. *)
Lemma lines_text_of units :
  Forall clean_line units ->
  map rstrip (readlines (universal_newlines (text_of units))) = units.
Proof.
  induction 1 as [|u units Hu _ IH]; [reflexivity|].
  rewrite text_of_cons, universal_newlines_app by discriminate.
  rewrite (universal_newlines_id (u ++ [nl])) by now apply clean_line_no_cr_nl.
  rewrite readlines_app, map_app, IH.
  destruct Hu as (Hr & Hnl & _).
  rewrite readlines_single by assumption. simpl.
  now rewrite rstrip_snoc_nl, Hr.
Qed.

Lemma reread_join lines :
  Forall clean_line lines ->
  reread_lines (join [nl] lines) =
  match lines with [] => [[]] | _ :: _ => lines end.
Proof.
  intros H. destruct lines as [|l lines]; [reflexivity|].
  unfold reread_lines. rewrite <- text_of_join by discriminate.
  now apply lines_text_of.
Qed.

Lemma routed_py_canonical p : routed_py (lower (strip p)) = routed_py p.
Proof. unfold routed_py. now rewrite header_canonical. Qed.

Lemma routed_r_canonical p : routed_r (lower (strip p)) = routed_r p.
Proof. unfold routed_r. now rewrite header_canonical. Qed.

Lemma header_no_nl p : ~ In nl p -> ~ In nl (lower (strip p)).
Proof. intros H I. apply H. now apply In_strip, In_lower_nl. Qed.

Lemma header_no_cr p : ~ In cr p -> ~ In cr (lower (strip p)).
Proof. intros H I. apply H. now apply In_strip, In_lower_cr. Qed.

(** A block that [format_str] returns on scanned code is read back as
    the same block, when the formatter's output on that code survives
    the rewrite. *)
Lemma format_str_block_unit img lines p u :
  block_survives img (join [nl] lines, p) ->
  Forall clean_line lines ->
  ~ In nl p -> ~ In cr p ->
  format_str (join [nl] lines) p img = Ok u ->
  block_unit img u.
Proof.
  unfold block_survives. cbn [fst snd].
  intros Sv Hlines Hnl Hcr Hfmt.
  pose proof (header_canonical p) as Hcanon.
  destruct (routed_py p) eqn:Rp; [|destruct (routed_r p) eqn:Rr].
  - rewrite format_str_py in Hfmt by assumption.
    destruct (black_format_str (join [nl] lines)) as [out|] eqn:B; [|discriminate].
    injection Hfmt as <-.
    destruct (Sv _ B) as (F & out' & B' & R).
    exists (lower (strip p)), (rstrip out).
    repeat split; auto using header_no_nl, header_no_cr.
    rewrite format_str_py by now rewrite routed_py_canonical.
    rewrite B'. cbn [bind]. now rewrite Hcanon, R.
  - rewrite format_str_r in Hfmt by assumption.
    destruct (styler img (join [nl] lines)) as [out|] eqn:B; [|discriminate].
    injection Hfmt as <-.
    destruct (Sv _ B) as (F & out' & B' & R).
    exists (lower (strip p)), (rstrip out).
    repeat split; auto using header_no_nl, header_no_cr.
    rewrite format_str_r by now rewrite ?routed_py_canonical, ?routed_r_canonical.
    rewrite B'. cbn [bind]. now rewrite Hcanon, R.
  - assert (P : passthrough p = true) by (unfold passthrough; now rewrite Rp, Rr).
    rewrite format_str_passthrough_eq in Hfmt by assumption.
    injection Hfmt as <-.
    assert (J : join [nl] (reread_lines (join [nl] lines)) = join [nl] lines).
    { rewrite reread_join by assumption. now destruct lines. }
    exists (lower (strip p)), (join [nl] lines).
    repeat split; auto using header_no_nl, header_no_cr.
    + rewrite reread_join by assumption. destruct lines; [now constructor|].
      eapply Forall_impl; [|exact Hlines]. now intros l (_ & _ & _ & Hl).
    + rewrite J. rewrite format_str_passthrough_eq.
      * now rewrite Hcanon.
      * unfold passthrough. now rewrite routed_py_canonical, routed_r_canonical, Rp, Rr.
Qed.

(** The blocks that the loop closes from a state, by the line it reads. *)
Lemma blocks_from_open st line rest :
  is_fence_line line = true ->
  is_in_fence st = false ->
  blocks_from (is_in_fence st) (fence_parameters st) (fenced_lines st)
              (line :: rest) =
  blocks_from true (Some (skipn 3 (strip (rstrip line)))) (fenced_lines st) rest.
Proof.
  unfold is_fence_line. intros L I. cbn [blocks_from]. now rewrite L, I.
Qed.

Lemma blocks_from_close st line rest p :
  is_fence_line line = true ->
  is_in_fence st = true ->
  fence_parameters st = Some p ->
  blocks_from (is_in_fence st) (fence_parameters st) (fenced_lines st)
              (line :: rest) =
  (join [nl] (fenced_lines st), p) :: blocks_from false None [] rest.
Proof.
  unfold is_fence_line. intros L I P. cbn [blocks_from]. now rewrite L, I, P.
Qed.

Lemma blocks_from_plain st line rest :
  is_fence_line line = false ->
  is_in_fence st = false ->
  blocks_from (is_in_fence st) (fence_parameters st) (fenced_lines st)
              (line :: rest) =
  blocks_from false (fence_parameters st) (fenced_lines st) rest.
Proof.
  unfold is_fence_line. intros L I. cbn [blocks_from]. now rewrite L, I.
Qed.

Lemma blocks_from_body st line rest :
  is_fence_line line = false ->
  is_in_fence st = true ->
  blocks_from (is_in_fence st) (fence_parameters st) (fenced_lines st)
              (line :: rest) =
  blocks_from true (fence_parameters st) (fenced_lines st ++ [rstrip line]) rest.
Proof.
  unfold is_fence_line. intros L I. cbn [blocks_from]. now rewrite L, I.
Qed.

Lemma scan_inv img lines :
  Forall (fun line => ~ In nl (rstrip line) /\ ~ In cr (rstrip line)) lines ->
  forall st st',
    scanner_inv img st ->
    Forall (block_survives img)
           (blocks_from (is_in_fence st) (fence_parameters st)
                        (fenced_lines st) lines) ->
    scan img st lines = Ok st' ->
    scanner_inv img st'.
Proof.
  intros H. induction H as [|line lines [Hnl Hcr] _ IH]; intros st st' Hinv Hsv.
  - now intros [= <-].
  - rewrite scan_cons. destruct (step img st line) as [st1|] eqn:Hstep; [|discriminate].
    cbn [bind]. destruct Hinv as (Hfin & Hfl & Hout & Hin).
    destruct (is_fence_line line) eqn:L, (is_in_fence st) eqn:I.
    + destruct (Hin eq_refl) as (h & Hp & Hh1 & Hh2).
      pose proof (@blocks_from_close st line lines h L I Hp) as B.
      rewrite I in B. rewrite B in Hsv. inversion Hsv as [|? ? Hb Hrest]; subst.
      rewrite step_close with (p := h) in Hstep by assumption.
      destruct (format_str _ h img) as [u|] eqn:F; [|discriminate].
      injection Hstep as <-. apply IH; [|exact Hrest].
      repeat split; cbn [is_in_fence fence_parameters fenced_lines final_lines];
        auto; try discriminate.
      apply Forall_app. split; [assumption|]. constructor; [|constructor].
      right. eapply format_str_block_unit; eassumption.
    + pose proof (@blocks_from_open st line lines L I) as B.
      rewrite I in B. rewrite B in Hsv.
      rewrite step_open in Hstep by assumption. injection Hstep as <-.
      apply IH; [|exact Hsv].
      repeat split; cbn [is_in_fence fence_parameters fenced_lines final_lines];
        auto; try discriminate.
      intros _. exists (skipn 3 (strip (rstrip line))). split; [reflexivity|].
      split; intros H; apply In_skipn, In_strip in H; contradiction.
    + pose proof (@blocks_from_body st line lines L I) as B.
      rewrite I in B. rewrite B in Hsv.
      rewrite step_body in Hstep by assumption. injection Hstep as <-.
      apply IH; [|exact Hsv].
      repeat split; cbn [is_in_fence fence_parameters fenced_lines final_lines];
        auto; try discriminate.
      apply Forall_app. split; [assumption|]. constructor; [|constructor].
      repeat split; auto using rstrip_idem.
    + pose proof (@blocks_from_plain st line lines L I) as B.
      rewrite I in B. rewrite B in Hsv.
      rewrite step_plain in Hstep by assumption. injection Hstep as <-.
      apply IH; [|exact Hsv].
      repeat split; cbn [is_in_fence fence_parameters fenced_lines final_lines];
        auto; try discriminate.
      apply Forall_app. split; [assumption|]. constructor; [|constructor].
      left. repeat split; auto using rstrip_idem.
Qed.

Lemma init_state_inv img : scanner_inv img init_state.
Proof.
  repeat split; cbn; auto; discriminate.
Qed.

Lemma render_lines header body :
  render header body ++ [nl] =
  ((fence ++ header) ++ [nl]) ++ (body ++ [nl]) ++ (fence ++ [nl]).
Proof.
  unfold render. cbn [join]. now rewrite <- !app_assoc.
Qed.

Lemma canonical_header_rstrip header :
  lower (strip header) = header -> rstrip header = header.
Proof. intros H. rewrite <- H. apply rstrip_header. Qed.

(** The lines of a block as the file holds it. *)
Lemma block_lines header body :
  lower (strip header) = header ->
  ~ In nl header -> ~ In cr header ->
  readlines (universal_newlines (render header body ++ [nl])) =
  [(fence ++ header) ++ [nl]]
    ++ readlines (universal_newlines (body ++ [nl]))
    ++ [fence ++ [nl]].
Proof.
  intros Hcanon Hnl Hcr. rewrite render_lines.
  rewrite universal_newlines_app by discriminate.
  rewrite (universal_newlines_id ((fence ++ header) ++ [nl])).
  - rewrite readlines_app, readlines_single.
    + f_equal. rewrite universal_newlines_app by discriminate.
      destruct (universal_newlines_ends_nl body) as (z & Hz).
      rewrite Hz, readlines_app. reflexivity.
    + intros H. apply in_app_or in H. destruct H as [H|H]; [|contradiction].
      simpl in H. only_what_is_used. intuition discriminate.
  - intros H. apply in_app_or in H. destruct H as [H|[H|[]]]; [|discriminate].
    apply in_app_or in H. destruct H as [H|H]; [|contradiction].
    simpl in H. only_what_is_used. intuition discriminate.
Qed.

Lemma rescan_unit img u st :
  unit_ok img u ->
  is_in_fence st = false ->
  fenced_lines st = [] ->
  exists st',
    scan img st (readlines (universal_newlines (u ++ [nl]))) = Ok st' /\
    is_in_fence st' = false /\
    fenced_lines st' = [] /\
    final_lines st' = final_lines st ++ [u].
Proof.
  intros [Hu | (header & body & -> & Hcanon & Hnl & Hcr & Hbody & Hfmt)] Hout Hfl.
  - rewrite universal_newlines_id by now apply clean_line_no_cr_nl.
    destruct Hu as (Hr & Hn & _ & Hf).
    rewrite readlines_single by assumption.
    rewrite scan_cons, step_plain; [|unfold is_fence_line|];
      rewrite ?rstrip_snoc_nl, ?Hr; try assumption.
    cbn [bind scan]. eexists. repeat split; assumption.
  - rewrite block_lines by assumption.
    assert (Hop : rstrip ((fence ++ header) ++ [nl]) = fence ++ header).
    { rewrite rstrip_snoc_nl. apply rstrip_fence_app.
      now apply canonical_header_rstrip. }
    destruct (header_of_opening _ Hop) as [Hfence Hheader].
    cbn [app]. rewrite scan_cons, step_open by assumption. cbn [bind].
    rewrite Hheader, Hfl, scan_app, scan_body.
    + cbn [bind app]. rewrite scan_cons.
      rewrite step_close with (p := header) by reflexivity.
      cbn [fenced_lines final_lines]. fold (reread_lines body).
      rewrite Hfmt. cbn [bind scan]. eexists. repeat split.
    + unfold reread_lines in Hbody. rewrite Forall_map in Hbody. exact Hbody.
Qed.

Lemma rescan_units img units :
  Forall (unit_ok img) units ->
  forall st,
    is_in_fence st = false ->
    fenced_lines st = [] ->
    exists st',
      scan img st (readlines (universal_newlines (text_of units))) = Ok st' /\
      is_in_fence st' = false /\
      fenced_lines st' = [] /\
      final_lines st' = final_lines st ++ units.
Proof.
  induction 1 as [|u units Hu _ IH]; intros st Hout Hfl.
  - exists st. rewrite app_nil_r. now repeat split.
  - rewrite text_of_cons, universal_newlines_app by discriminate.
    destruct (universal_newlines_ends_nl u) as (z & Hz).
    rewrite Hz, readlines_app, <- Hz, scan_app.
    destruct (rescan_unit st Hu Hout Hfl) as (st1 & -> & Hout1 & Hfl1 & Hfin1).
    cbn [bind]. destruct (IH st1 Hout1 Hfl1) as (st' & Hs & Ho & Hf & Hfin).
    exists st'. repeat split; try assumption.
    now rewrite Hfin, Hfin1, <- app_assoc.
Qed.

(** The units of a file come back from [format_file]. *)
Lemma format_units img units :
  Forall (unit_ok img) units ->
  format_file (text_of units) img = Ok (finish units).
Proof.
  intros H. unfold format_file, format_lines.
  destruct (rescan_units H init_state eq_refl eq_refl) as (st' & -> & _ & _ & Hfin).
  cbn [bind]. now rewrite Hfin.
Qed.

Lemma unit_rstrip img u : unit_ok img u -> rstrip u = u.
Proof.
  intros [(H & _) | (header & body & -> & _)]; [assumption|].
  unfold render. cbn [join]. rewrite !app_assoc.
  apply rstrip_app_fixed; [reflexivity | discriminate].
Qed.

(** Dropping the trailing whitespace of the joined units drops
    trailing empty units. *)
Lemma rstrip_join_units img units :
  Forall (unit_ok img) units ->
  exists units' rest,
    units = units' ++ rest /\
    rstrip (join [nl] units) = join [nl] units' /\
    Forall (unit_ok img) units'.
Proof.
  induction units as [|u units IH] using rev_ind; intros H.
  - now exists [], [].
  - apply Forall_app in H. destruct H as [Hunits Hu].
    inversion Hu as [|? ? Hu' _]; subst.
    destruct u as [|c u].
    + destruct (IH Hunits) as (units' & rest & Hsplit & Hr & Hok).
      exists units', (rest ++ [[]]).
      split; [now rewrite Hsplit, <- app_assoc|].
      split; [|assumption]. destruct units as [|v units]; [assumption|].
      rewrite join_snoc by discriminate.
      rewrite app_nil_r. now rewrite rstrip_snoc_nl.
    + exists (units ++ [c :: u]), [].
      split; [now rewrite app_nil_r|].
      split; [|apply Forall_app; now split].
      destruct units as [|v units].
      * simpl app. cbn [join]. eapply unit_rstrip; eassumption.
      * assert (R : forall x, x = join [nl] (v :: units) ++ [nl] ++ c :: u ->
                                rstrip x = x).
        { intros x ->. rewrite !app_assoc.
          apply rstrip_app_fixed; [eapply unit_rstrip; eassumption | discriminate]. }
        apply R, join_snoc. discriminate.
Qed.

(** C7, as the code has it: when the output of the formatter on each
    fenced block of the file that a formatter takes survives the
    rewrite, [format_file] returns its own output unchanged, on that
    output and on the file that the command wrote from it.  Nothing is
    asked of the formatters on any other source, and nothing at all for
    a file none of whose blocks a formatter takes. *)
Theorem format_file_idempotent content img output :
  Forall (block_survives img) (file_blocks content) ->
  format_file content img = Ok output ->
  format_file output img = Ok output /\
  format_file (print output) img = Ok output.
Proof.
  intros Sv H. unfold format_file, format_lines in H.
  destruct (scan img init_state _) as [st|] eqn:E; [|discriminate].
  cbn [bind] in H. injection H as <-.
  assert (Hinv : scanner_inv img st).
  { eapply scan_inv; [|apply init_state_inv|exact Sv|exact E].
    apply Forall_forall. intros x Hx. eapply raw_line_clean; eassumption. }
  destruct Hinv as (Hfin & _).
  destruct (rstrip_join_units Hfin) as (units & _ & _ & Hr & Hok).
  unfold finish, print. rewrite Hr.
  assert (W : exists w, w <> [] /\ Forall (unit_ok img) w /\
                        text_of w = join [nl] units ++ [nl] /\
                        finish w = join [nl] units ++ [nl]).
  { destruct units as [|u units].
    - exists [[]]. repeat split; try discriminate.
      constructor; [left; apply clean_line_nil | constructor].
    - exists (u :: units). repeat split; try discriminate; try assumption.
      + now apply text_of_join.
      + unfold finish. now rewrite <- Hr, rstrip_idem. }
  destruct W as (w & Hw & Hwok & Htext & Hfinish).
  rewrite <- Htext. split.
  - rewrite format_units by assumption. now rewrite Hfinish, Htext.
  - replace (text_of w ++ [nl]) with (text_of (w ++ [[]]))
      by (rewrite text_of_app; reflexivity).
    rewrite format_units.
    + f_equal. rewrite Htext, <- Hfinish. unfold finish.
      rewrite join_snoc by assumption. rewrite app_nil_r.
      now rewrite rstrip_snoc_nl.
    + apply Forall_app. split; [assumption|].
      constructor; [left; apply clean_line_nil | constructor].
Qed.

(** ** More on the rewrite path *)

Lemma format_str_error src header img e :
  format_str src header img = Err e ->
  routed_py header = true /\ black_format_str src = Err e \/
  routed_py header = false /\ routed_r header = true /\
  styler img src = Err e.
Proof.
  unfold format_str, routed_py, routed_r.
  destruct (startswith (py "py") _); [|destruct (startswith (py "r") _)].
  - destruct (black_format_str src); [discriminate|]. intros [= <-]. now left.
  - destruct (styler img src); [discriminate|]. intros [= <-]. now right.
  - discriminate.
Qed.

(** In a fence the scanner holds a header. *)
Lemma step_header_kept img st line st' :
  (is_in_fence st = true -> fence_parameters st <> None) ->
  step img st line = Ok st' ->
  is_in_fence st' = true -> fence_parameters st' <> None.
Proof.
  intros Hinv. unfold step.
  destruct (startswith fence (rstrip line)), (is_in_fence st) eqn:I.
  - destruct (fence_parameters st); [|discriminate].
    destruct (format_str _ _ _); [|discriminate].
    intros [= <-]. discriminate.
  - intros [= <-] _. discriminate.
  - intros [= <-] _. now apply Hinv.
  - intros [= <-]. discriminate.
Qed.

(** Where the loop stops, it stops on a fenced block that [format_str]
    fails on, after the blocks that it returned on. *)
Lemma scan_blocks_error img lines :
  forall st e,
    (is_in_fence st = true -> fence_parameters st <> None) ->
    scan img st lines = Err e ->
    exists done src header rest,
      blocks_from (is_in_fence st) (fence_parameters st) (fenced_lines st)
                  lines = done ++ (src, header) :: rest /\
      Forall (block_formats img) done /\
      format_str src header img = Err e.
Proof.
  induction lines as [|line lines IH]; intros st e Hinv; [discriminate|].
  rewrite scan_cons.
  destruct (is_fence_line line) eqn:L, (is_in_fence st) eqn:I.
  - destruct (fence_parameters st) as [h|] eqn:P; [|now elim Hinv].
    pose proof (@blocks_from_close st line lines h L I P) as B.
    rewrite I, P in B. rewrite B.
    rewrite (@step_close img st line h L I P).
    destruct (format_str (join [nl] (fenced_lines st)) h img) as [u|e1] eqn:F;
      cbn [bind].
    + intros S.
      destruct (IH (mk_state false None [] (final_lines st ++ [u])) e)
        as (done & src & header & rest & Hb & Hd & Hf);
        [discriminate | exact S |].
      cbn [is_in_fence fence_parameters fenced_lines] in Hb.
      exists ((join [nl] (fenced_lines st), h) :: done), src, header, rest.
      split; [now rewrite Hb|]. split; [|assumption].
      constructor; [now exists u | assumption].
    + intros [= <-].
      exists [], (join [nl] (fenced_lines st)), h, (blocks_from false None [] lines).
      split; [reflexivity|]. split; [constructor | exact F].
  - pose proof (@blocks_from_open st line lines L I) as B.
    rewrite I in B. rewrite B.
    rewrite step_open by assumption. cbn [bind]. intros S.
    apply IH in S; [exact S | discriminate].
  - pose proof (@blocks_from_body st line lines L I) as B.
    rewrite I in B. rewrite B.
    rewrite step_body by assumption. cbn [bind]. intros S.
    apply IH in S; [exact S | intros _; now apply Hinv].
  - pose proof (@blocks_from_plain st line lines L I) as B.
    rewrite I in B. rewrite B.
    rewrite step_plain by assumption. cbn [bind]. intros S.
    apply IH in S; [exact S | discriminate].
Qed.

(** The loop returns when [format_str] returns on each fenced block. *)
Lemma scan_blocks_ok img lines :
  forall st,
    (is_in_fence st = true -> fence_parameters st <> None) ->
    Forall (block_formats img)
           (blocks_from (is_in_fence st) (fence_parameters st)
                        (fenced_lines st) lines) ->
    exists st', scan img st lines = Ok st'.
Proof.
  intros st Hinv Hall.
  destruct (scan img st lines) as [st'|e] eqn:S; [now exists st'|].
  exfalso.
  destruct (@scan_blocks_error img lines st e Hinv S)
    as (done & src & header & rest & Hb & _ & Hf).
  rewrite Hb in Hall. apply Forall_app in Hall. destruct Hall as [_ Hall].
  inversion Hall as [|? ? (text & Ht) _]; subst.
  cbn [fst snd] in Ht. congruence.
Qed.

Lemma scan_blocks_formatted img lines :
  forall st st',
    (is_in_fence st = true -> fence_parameters st <> None) ->
    scan img st lines = Ok st' ->
    Forall (block_formats img)
           (blocks_from (is_in_fence st) (fence_parameters st)
                        (fenced_lines st) lines).
Proof.
  induction lines as [|line lines IH]; intros st st' Hinv; [constructor|].
  rewrite scan_cons.
  destruct (is_fence_line line) eqn:L, (is_in_fence st) eqn:I.
  - destruct (fence_parameters st) as [h|] eqn:P; [|now elim Hinv].
    pose proof (@blocks_from_close st line lines h L I P) as B.
    rewrite I, P in B. rewrite B.
    rewrite (@step_close img st line h L I P).
    destruct (format_str (join [nl] (fenced_lines st)) h img) as [u|e1] eqn:F;
      cbn [bind]; [|discriminate].
    intros S. constructor; [now exists u|].
    apply IH in S; [exact S | discriminate].
  - pose proof (@blocks_from_open st line lines L I) as B.
    rewrite I in B. rewrite B.
    rewrite step_open by assumption. cbn [bind]. intros S.
    apply IH in S; [exact S | discriminate].
  - pose proof (@blocks_from_body st line lines L I) as B.
    rewrite I in B. rewrite B.
    rewrite step_body by assumption. cbn [bind]. intros S.
    apply IH in S; [exact S | intros _; now apply Hinv].
  - pose proof (@blocks_from_plain st line lines L I) as B.
    rewrite I in B. rewrite B.
    rewrite step_plain by assumption. cbn [bind]. intros S.
    apply IH in S; [exact S | discriminate].
Qed.

(** X1: [format_file] raises nothing of its own after it has opened the
    file.  When it fails, either the file is not there, or the loop
    stopped at a fenced block of the file, after the blocks that
    [format_str] returned on, and the error is the one that the
    formatter taking that block's header raised on that block's code. *)
Theorem format_file_error_from_formatter fs path img e :
  format_file_at fs path img = Err e ->
  fs path = None /\ e = FileNotFoundError \/
  exists content done src header rest,
    fs path = Some content /\
    file_blocks content = done ++ (src, header) :: rest /\
    Forall (block_formats img) done /\
    format_str src header img = Err e /\
    (routed_py header = true /\ black_format_str src = Err e \/
     routed_py header = false /\ routed_r header = true /\
     styler img src = Err e).
Proof.
  unfold format_file_at, open_rt.
  destruct (fs path) as [content|]; cbn [bind].
  - intros H. right. unfold format_file, format_lines in H.
    destruct (scan img init_state _) as [st|e1] eqn:S; [discriminate|].
    cbn [bind] in H. injection H as <-.
    destruct (@scan_blocks_error img _ init_state e1 ltac:(discriminate) S)
      as (done & src & header & rest & Hb & Hd & Hf).
    exists content, done, src, header, rest.
    repeat split; try assumption. now apply format_str_error.
  - intros [= <-]. now left.
Qed.

(** X2: [format_file] returns exactly on the files that are there and
    on each of whose fenced blocks [format_str] returns; nothing is
    asked of the formatters on any other source. *)
Theorem format_file_returns fs path img :
  (exists output, format_file_at fs path img = Ok output) <->
  (exists content,
     fs path = Some content /\
     Forall (block_formats img) (file_blocks content)).
Proof.
  unfold format_file_at, open_rt. split.
  - intros (output & H). destruct (fs path) as [content|]; [|discriminate].
    cbn [bind] in H. exists content. split; [reflexivity|].
    unfold format_file, format_lines in H.
    destruct (scan img init_state _) as [st|] eqn:S; [|discriminate].
    eapply (@scan_blocks_formatted img _ init_state); [discriminate | exact S].
  - intros (content & -> & Hall). cbn [bind].
    unfold format_file, format_lines.
    destruct (@scan_blocks_ok img _ init_state ltac:(discriminate) Hall)
      as (st & S).
    unfold file_blocks in Hall. rewrite S. cbn [bind]. now eexists.
Qed.

Lemma with_line_end_no_nl s : ~ In nl (with_line_end [cr] s).
Proof.
  unfold with_line_end. rewrite in_flat_map. intros (c & _ & H).
  destruct (Ascii.eqb c nl) eqn:E.
  - destruct H as [H|[]]. discriminate.
  - destruct H as [H|[]]. subst c. now rewrite Ascii.eqb_refl in E.
Qed.

Lemma universal_newlines_crlf s :
  ~ In cr s -> universal_newlines (with_line_end [cr; nl] s) = s.
Proof.
  induction s as [|c s IH]; intros H; [reflexivity|].
  assert (Hs : ~ In cr s) by (intros I; apply H; now right).
  assert (Hc : Ascii.eqb c cr = false).
  { apply Ascii.eqb_neq. intros ->. apply H. now left. }
  change (with_line_end [cr; nl] (c :: s))
    with ((if Ascii.eqb c nl then [cr; nl] else [c])
            ++ with_line_end [cr; nl] s).
  destruct (Ascii.eqb c nl) eqn:E.
  - apply Ascii.eqb_eq in E. subst c.
    cbn [app universal_newlines]. rewrite !Ascii.eqb_refl.
    change (Ascii.eqb nl cr) with false. cbv iota. now rewrite IH.
  - cbn [app]. rewrite universal_newlines_cons by assumption. now rewrite IH.
Qed.

Lemma universal_newlines_lone_cr s :
  ~ In cr s -> universal_newlines (with_line_end [cr] s) = s.
Proof.
  induction s as [|c s IH]; intros H; [reflexivity|].
  assert (Hs : ~ In cr s) by (intros I; apply H; now right).
  assert (Hc : Ascii.eqb c cr = false).
  { apply Ascii.eqb_neq. intros ->. apply H. now left. }
  change (with_line_end [cr] (c :: s))
    with ((if Ascii.eqb c nl then [cr] else [c]) ++ with_line_end [cr] s).
  destruct (Ascii.eqb c nl) eqn:E.
  - apply Ascii.eqb_eq in E. subst c.
    pose proof (with_line_end_no_nl s) as N.
    cbn [app universal_newlines]. rewrite Ascii.eqb_refl.
    destruct (with_line_end [cr] s) as [|d t] eqn:W.
    + specialize (IH Hs). cbn in IH. now rewrite <- IH.
    + destruct (Ascii.eqb d nl) eqn:D.
      * apply Ascii.eqb_eq in D. subst d. exfalso. apply N. now left.
      * now rewrite (IH Hs).
  - cbn [app]. rewrite universal_newlines_cons by assumption. now rewrite IH.
Qed.

(** X3: the line ends of the file do not matter: with CR LF or with a lone
    CR in the place of every LF, the file gives the same result. *)
Theorem format_file_line_ends content img :
  ~ In cr content ->
  format_file (with_line_end [cr; nl] content) img = format_file content img /\
  format_file (with_line_end [cr] content) img = format_file content img.
Proof.
  intros H. unfold format_file.
  rewrite universal_newlines_crlf, universal_newlines_lone_cr by assumption.
  rewrite (universal_newlines_id content H). split; reflexivity.
Qed.

Lemma step_rstrip img st line : step img st (rstrip line) = step img st line.
Proof. unfold step. now rewrite !rstrip_idem. Qed.

Lemma scan_rstrip img lines :
  forall st, scan img st (map rstrip lines) = scan img st lines.
Proof.
  induction lines as [|line lines IH]; intros st; [reflexivity|].
  cbn [map]. rewrite !scan_cons, step_rstrip.
  destruct (step img st line); cbn [bind]; [apply IH | reflexivity].
Qed.

(** X4: whitespace at the end of a line, of a marker line too, does not
    matter: two files whose lines agree once right-trimmed give the same
    result. *)
Theorem format_file_trailing_whitespace content1 content2 img :
  map rstrip (readlines (universal_newlines content1)) =
  map rstrip (readlines (universal_newlines content2)) ->
  format_file content1 img = format_file content2 img.
Proof.
  intros H. unfold format_file, format_lines.
  rewrite <- (scan_rstrip img (readlines (universal_newlines content1))).
  rewrite <- (scan_rstrip img (readlines (universal_newlines content2))).
  now rewrite H.
Qed.

Lemma indented_not_marker c line :
  is_space c = true -> is_fence_line (c :: line) = false.
Proof.
  intros H. unfold is_fence_line. rewrite rstrip_cons.
  assert (B : Ascii.eqb backtick c = false).
  { apply Ascii.eqb_neq. intros <-. discriminate. }
  destruct (rstrip line); [now rewrite H|].
  unfold fence. cbn [startswith]. now rewrite B.
Qed.

(** X5: a marker behind whitespace is no marker: outside a fence the line
    is copied, inside a fence it is one more line of the body. *)
Theorem indented_marker_is_text img st c line :
  is_space c = true ->
  step img st (c :: line) =
  Ok (if is_in_fence st
      then mk_state true (fence_parameters st)
                    (fenced_lines st ++ [rstrip (c :: line)]) (final_lines st)
      else mk_state false (fence_parameters st) (fenced_lines st)
                    (final_lines st ++ [rstrip (c :: line)])).
Proof.
  intros H. pose proof (indented_not_marker c line H) as M.
  destruct (is_in_fence st) eqn:I.
  - now apply step_body.
  - now apply step_plain.
Qed.

(** X6: the text that [format_file] returns is right-trimmed text and one
    newline: it ends in exactly one newline, with no whitespace before
    it. *)
Theorem format_file_ends_in_one_newline content img output :
  format_file content img = Ok output ->
  exists text,
    output = text ++ [nl] /\
    rstrip output = text /\
    (forall before c, text = before ++ [c] -> is_space c = false).
Proof.
  unfold format_file, format_lines.
  destruct (scan img init_state _) as [st|]; [|discriminate].
  cbn [bind]. intros [= <-]. unfold finish.
  exists (rstrip (join [nl] (final_lines st))).
  split; [reflexivity|]. split.
  - now rewrite rstrip_snoc_nl, rstrip_idem.
  - intros before c E. eapply rstrip_last. exact E.
Qed.

(** X7: what [format_str] returns is a fenced block under the stripped,
    lowercased header, around the right-trimmed output of black on the
    code when the header starts with [py], around the right-trimmed
    output of the R styler on the code when it starts with [r]
    otherwise, and around the code itself for any other header. *)
Theorem format_str_returns_block src header img block :
  format_str src header img = Ok block ->
  exists body,
    block = fence ++ lower (strip header) ++ [nl] ++ body ++ [nl] ++ fence /\
    if routed_py header
    then exists out, black_format_str src = Ok out /\ body = rstrip out
    else if routed_r header
    then exists out, styler img src = Ok out /\ body = rstrip out
    else body = src.
Proof.
  assert (J : forall h body,
             join [nl] [fence ++ h; body; fence] =
             fence ++ h ++ [nl] ++ body ++ [nl] ++ fence).
  { intros h body. cbn [join]. now rewrite <- app_assoc. }
  unfold format_str, routed_py, routed_r.
  destruct (startswith (py "py") _); [|destruct (startswith (py "r") _)].
  - destruct (black_format_str src) as [out|]; [|discriminate].
    intros [= <-]. exists (rstrip out).
    split; [apply J|]. now exists out.
  - destruct (styler img src) as [out|]; [|discriminate].
    intros [= <-]. exists (rstrip out).
    split; [apply J|]. now exists out.
  - intros [= <-]. exists src.
    split; [apply J | reflexivity].
Qed.

Lemma universal_newlines_chars s c :
  In c (universal_newlines s) -> c = nl \/ In c s.
Proof.
  revert c. induction s as [|d s IH]; intros c; [contradiction|].
  cbn [universal_newlines]. destruct (Ascii.eqb d cr).
  - destruct s as [|d' s'].
    + intros [<-|[]]. now left.
    + destruct (Ascii.eqb d' nl).
      * intros H. destruct (IH _ H); [now left | right; now right].
      * intros [<-|H]; [now left|].
        destruct (IH _ H); [now left | right; now right].
  - intros [<-|H]; [right; now left|].
    destruct (IH _ H); [now left | right; now right].
Qed.

Lemma blank_lines_scan img lines :
  Forall (fun line => rstrip line = []) lines ->
  forall st,
    is_in_fence st = false ->
    scan img st lines =
    Ok (mk_state false (fence_parameters st) (fenced_lines st)
                 (final_lines st ++ repeat [] (List.length lines))).
Proof.
  induction 1 as [|line lines Hl _ IH]; intros st Hout.
  - cbn. rewrite app_nil_r. destruct st; cbn in *. now subst.
  - rewrite scan_cons, step_plain; [|unfold is_fence_line; now rewrite Hl|assumption].
    cbn [bind]. rewrite IH by reflexivity. cbn [final_lines fence_parameters fenced_lines].
    rewrite Hl, <- app_assoc. reflexivity.
Qed.

Lemma join_blank n : forallb is_space (join [nl] (repeat [] n)) = true.
Proof.
  induction n as [|n IH]; [reflexivity|].
  destruct n as [|n]; [reflexivity|].
  change (repeat [] (S (S n))) with (([] : str) :: repeat [] (S n)).
  change (repeat [] (S n)) with (([] : str) :: repeat [] n) at 1.
  rewrite join_cons. cbn [app forallb]. exact IH.
Qed.

(** X8: a file of whitespace only, the empty file too, is rewritten to one
    newline. *)
Theorem format_file_blank content img :
  forallb is_space content = true ->
  format_file content img = Ok [nl].
Proof.
  intros H. unfold format_file, format_lines.
  rewrite forallb_forall in H.
  rewrite blank_lines_scan; [|apply Forall_forall|reflexivity].
  - cbn [bind final_lines init_state app]. unfold finish.
    assert (R : rstrip (join [nl] (repeat [] (List.length
                 (readlines (universal_newlines content))))) = []).
    { apply rstrip_nil_iff, join_blank. }
    now rewrite R.
  - intros line Hline. apply rstrip_nil_iff, forallb_forall.
    intros c Hc. pose proof (readlines_chars _ _ _ Hline Hc) as U.
    apply universal_newlines_chars in U. destruct U as [-> | U]; [reflexivity|].
    now apply H.
Qed.

(** ** More on the [style] command *)

Lemma fs_write_other fs filename content n :
  n <> filename -> fs_write fs filename content n = fs n.
Proof.
  intros H. unfold fs_write.
  destruct (str_eqb n filename) eqn:E; [|reflexivity].
  apply str_eqb_eq in E. contradiction.
Qed.

Lemma fs_write_same fs filename content :
  fs_write fs filename content filename = Some content.
Proof. unfold fs_write. now rewrite str_eqb_refl. Qed.

Lemma style_command_cons filename rest img fs :
  style_command (filename :: rest) img fs =
  match (content <- open_rt fs filename ;; format_file content img) with
  | Err e => (fs, Err e)
  | Ok fixed_md => style_command rest img (fs_write fs filename (print fixed_md))
  end.
Proof. reflexivity. Qed.

(** The command writes no file but those that it is given. *)
Lemma style_command_frame filenames img fs n :
  ~ In n filenames -> fst (style_command filenames img fs) n = fs n.
Proof.
  revert fs. induction filenames as [|f rest IH]; intros fs H; [reflexivity|].
  rewrite style_command_cons.
  destruct (content <- open_rt fs f ;; format_file content img); [|reflexivity].
  rewrite IH by (intros I; apply H; now right).
  apply fs_write_other. intros ->. apply H. now left.
Qed.

(** X9: when the command returns, each file that it was given (once) holds
    the result of [format_file] on what the file held, printed; any
    other file holds what it held. *)
Theorem style_command_rewrites_each filenames img fs fs' :
  style_command filenames img fs = (fs', Ok tt) ->
  NoDup filenames ->
  (forall filename,
      In filename filenames ->
      exists content output,
        fs filename = Some content /\
        format_file content img = Ok output /\
        fs' filename = Some (print output)) /\
  (forall other, ~ In other filenames -> fs' other = fs other).
Proof.
  intros Hrun Hnd. split.
  - revert fs Hrun. induction Hnd as [|f rest Hf Hnd IH]; intros fs Hrun name Hin;
      [contradiction|].
    rewrite style_command_cons in Hrun. unfold open_rt in Hrun.
    destruct (fs f) as [content|] eqn:F; [|discriminate].
    cbn [bind] in Hrun.
    destruct (format_file content img) as [output|] eqn:O; [|discriminate].
    destruct Hin as [<- | Hin].
    + exists content, output. split; [assumption|]. split; [assumption|].
      pose proof style_command_frame as Fr.
      specialize (Fr rest img (fs_write fs f (print output)) f Hf).
      rewrite Hrun in Fr. cbn [fst] in Fr. rewrite Fr. apply fs_write_same.
    + destruct (IH _ Hrun name Hin) as (c & o & Hc & Ho & Hw).
      exists c, o. split; [|now split].
      rewrite fs_write_other in Hc; [assumption|].
      intros ->. contradiction.
  - intros other Hother.
    pose proof style_command_frame as Fr.
    specialize (Fr filenames img fs other Hother).
    now rewrite Hrun in Fr.
Qed.

(** X10: when the command fails, it fails on one file of the list: the files
    before it have been processed, the file system is the one that they
    left, and no other file has been written. *)
Theorem style_command_failure filenames img fs fs' e :
  style_command filenames img fs = (fs', Err e) ->
  exists done filename todo,
    filenames = done ++ filename :: todo /\
    style_command done img fs = (fs', Ok tt) /\
    (content <- open_rt fs' filename ;; format_file content img) = Err e /\
    (forall other, ~ In other done -> fs' other = fs other).
Proof.
  revert fs. induction filenames as [|f rest IH]; intros fs Hrun; [discriminate|].
  rewrite style_command_cons in Hrun.
  destruct (content <- open_rt fs f ;; format_file content img)
    as [output|e0] eqn:O.
  - destruct (IH _ Hrun) as (done & name & todo & -> & Hdone & Hfail & Hframe).
    exists (f :: done), name, todo. split; [reflexivity|].
    split; [rewrite style_command_cons, O; exact Hdone|].
    split; [assumption|]. intros other Hother.
    rewrite Hframe by (intros I; apply Hother; now right).
    apply fs_write_other. intros ->. apply Hother. now left.
  - injection Hrun as <- <-. exists [], f, rest. now repeat split.
Qed.

(** The text that [format_file] returns is the text of units that the
    scanner reads back as they are. *)
Lemma format_file_output_units content img output :
  Forall (block_survives img) (file_blocks content) ->
  format_file content img = Ok output ->
  exists units,
    units <> [] /\ Forall (unit_ok img) units /\
    text_of units = output /\ finish units = output.
Proof.
  intros Sv H. unfold format_file, format_lines in H.
  destruct (scan img init_state _) as [st|] eqn:E; [|discriminate].
  cbn [bind] in H. injection H as <-.
  assert (Hinv : scanner_inv img st).
  { eapply scan_inv; [|apply init_state_inv|exact Sv|exact E].
    apply Forall_forall. intros x Hx. eapply raw_line_clean; eassumption. }
  destruct Hinv as (Hfin & _).
  destruct (rstrip_join_units Hfin) as (kept & _ & _ & Hr & Hok).
  assert (Out : finish (final_lines st) = join [nl] kept ++ [nl])
    by (unfold finish; now rewrite Hr).
  rewrite Out. destruct kept as [|u kept].
  - exists [[]]. repeat split; try discriminate; try reflexivity.
    constructor; [left; apply clean_line_nil | constructor].
  - exists (u :: kept). repeat split; try discriminate; try assumption.
    + now apply text_of_join.
    + unfold finish. now rewrite <- Hr, rstrip_idem.
Qed.

Lemma printed_output_settled content img output :
  Forall (block_survives img) (file_blocks content) ->
  format_file content img = Ok output ->
  format_file (print output) img = Ok output.
Proof.
  intros Sv H.
  pose proof format_file_output_units as U.
  destruct (U content img output Sv H)
    as (units & Hne & Hok & Htext & Hfinish).
  unfold print. rewrite <- Htext at 1.
  replace (text_of units ++ [nl]) with (text_of (units ++ [[]]))
    by (rewrite text_of_app; reflexivity).
  rewrite format_units.
  - f_equal. rewrite <- Hfinish. unfold finish.
    rewrite join_snoc by assumption. rewrite app_nil_r.
    now rewrite rstrip_snoc_nl.
  - apply Forall_app. split; [assumption|].
    constructor; [left; apply clean_line_nil | constructor].
Qed.

(** A settled file stays settled when the command rewrites a file. *)
Lemma write_keeps_settled img fs f content output g :
  fs f = Some content ->
  format_file content img = Ok output ->
  settled img fs g ->
  settled img (fs_write fs f (print output)) g.
Proof.
  intros Hf Hfmt (o & Hg & Ho). exists o. split; [|assumption].
  unfold fs_write. destruct (str_eqb g f) eqn:E; [|assumption].
  apply str_eqb_eq in E. subst g. congruence.
Qed.

Lemma style_command_keeps_settled filenames img g :
  forall fs fs1,
    style_command filenames img fs = (fs1, Ok tt) ->
    settled img fs g -> settled img fs1 g.
Proof.
  induction filenames as [|f rest IH]; intros fs fs1 Hrun Hset.
  - now injection Hrun as <-.
  - rewrite style_command_cons in Hrun. unfold open_rt in Hrun.
    destruct (fs f) as [content|] eqn:F; [|discriminate]. cbn [bind] in Hrun.
    destruct (format_file content img) as [output|] eqn:O; [|discriminate].
    eapply IH; [exact Hrun|]. eapply write_keeps_settled; eassumption.
Qed.

Lemma style_command_settles filenames img :
  forall fs fs1,
    (forall filename,
        In filename filenames ->
        settled img fs filename \/
        forall content,
          fs filename = Some content ->
          Forall (block_survives img) (file_blocks content)) ->
    style_command filenames img fs = (fs1, Ok tt) ->
    forall filename, In filename filenames -> settled img fs1 filename.
Proof.
  induction filenames as [|f rest IH]; intros fs fs1 Hready Hrun name Hin;
    [contradiction|].
  rewrite style_command_cons in Hrun. unfold open_rt in Hrun.
  destruct (fs f) as [content|] eqn:F; [|discriminate]. cbn [bind] in Hrun.
  destruct (format_file content img) as [output|] eqn:O; [|discriminate].
  assert (Hf : settled img (fs_write fs f (print output)) f).
  { destruct (Hready f (or_introl eq_refl)) as [Hset | Hsv].
    - eapply write_keeps_settled; eassumption.
    - exists output. split; [apply fs_write_same|].
      eapply printed_output_settled; [|exact O]. now apply Hsv. }
  destruct Hin as [<- | Hin].
  - eapply style_command_keeps_settled; eassumption.
  - eapply IH; [|exact Hrun|exact Hin].
    intros g Hg. destruct (str_eqb g f) eqn:E.
    + apply str_eqb_eq in E. subst g. now left.
    + assert (Same : fs_write fs f (print output) g = fs g)
        by (unfold fs_write; now rewrite E).
      destruct (Hready g (or_intror Hg)) as [(o & Ho & Hfo) | Hsv].
      * left. exists o. split; [now rewrite Same | assumption].
      * right. intros c Hc. apply Hsv. now rewrite <- Same.
Qed.

Lemma style_command_on_settled filenames img :
  forall fs,
    (forall filename, In filename filenames -> settled img fs filename) ->
    exists fs2,
      style_command filenames img fs = (fs2, Ok tt) /\
      forall n, fs2 n = fs n.
Proof.
  induction filenames as [|f rest IH]; intros fs Hset.
  - now exists fs.
  - destruct (Hset f (or_introl eq_refl)) as (output & Hf & Hfmt).
    rewrite style_command_cons. unfold open_rt. rewrite Hf. cbn [bind].
    rewrite Hfmt.
    assert (Same : forall n, fs_write fs f (print output) n = fs n).
    { intros n. unfold fs_write. destruct (str_eqb n f) eqn:E; [|reflexivity].
      apply str_eqb_eq in E. now subst. }
    destruct (IH (fs_write fs f (print output))) as (fs2 & Hrun & Heq).
    + intros name Hin. destruct (Hset name (or_intror Hin)) as (o & Ho & Hfo).
      exists o. split; [now rewrite Same | assumption].
    + exists fs2. split; [assumption|]. intros n. now rewrite Heq, Same.
Qed.

(** X11: a second run of the command changes nothing: when, in each file
    that the command is given, the output of the formatter on each
    fenced block that a formatter takes survives the rewrite, the files
    that one run has written are written again with what they hold.
    Nothing is asked of the formatters on any other source. *)
Theorem style_command_twice filenames img fs fs1 :
  (forall filename content,
      In filename filenames ->
      fs filename = Some content ->
      Forall (block_survives img) (file_blocks content)) ->
  style_command filenames img fs = (fs1, Ok tt) ->
  exists fs2,
    style_command filenames img fs1 = (fs2, Ok tt) /\
    forall filename, fs2 filename = fs1 filename.
Proof.
  intros Sv Hrun. apply style_command_on_settled.
  intros name Hin.
  eapply style_command_settles; [|exact Hrun|exact Hin].
  intros g Hg. right. intros c Hc. eapply Sv; eassumption.
Qed.

(** ** More on the block extractor and the test harness *)

Lemma visit_all_only_code path ast :
  forall acc,
    visit_all path acc ast = visit_all path acc (filter is_block_code ast).
Proof.
  induction ast as [|e ast IH]; intros acc; [reflexivity|].
  cbn [filter visit_all]. unfold is_block_code at 1.
  destruct (str_eqb (elt_type e) (py "block_code")) eqn:E.
  - cbn [visit_all]. destruct (visit path acc e); cbn [bind]; [apply IH | reflexivity].
  - unfold visit. rewrite E. cbn [bind]. apply IH.
Qed.

(** X12: only the [block_code] elements of the document count: two documents
    with the same fenced blocks give the same result, whatever text
    stands between the blocks. *)
Theorem non_code_elements_ignored mark1 mark2 path :
  filter is_block_code (markdown mark1) = filter is_block_code (markdown mark2) ->
  get_top_level_block_codes mark1 path = get_top_level_block_codes mark2 path.
Proof.
  intros H. unfold get_top_level_block_codes.
  rewrite (visit_all_only_code path (markdown mark1)).
  rewrite (visit_all_only_code path (markdown mark2)).
  now rewrite H.
Qed.

Lemma flat_map_ext_in (A B : Type) (f g : A -> list B) l :
  (forall x, In x l -> f x = g x) -> flat_map f l = flat_map g l.
Proof.
  induction l as [|x l IH]; intros H; [reflexivity|].
  cbn [flat_map]. rewrite H by now left.
  rewrite IH; [reflexivity|]. intros y Hy. apply H. now right.
Qed.

Lemma flat_map_insert (f : str -> list CodeBlock) x b names :
  NoDup names -> In x names ->
  Permutation
    (flat_map (fun n => f n ++ (if str_eqb x n then [b] else [])) names)
    (b :: flat_map f names).
Proof.
  intros N. induction N as [|n names Hn N IH]; intros Hin; [contradiction|].
  cbn [flat_map]. destruct (str_eqb x n) eqn:E.
  - apply str_eqb_eq in E. subst n.
    rewrite (flat_map_ext_in (fun n => f n ++ (if str_eqb x n then [b] else [])) f).
    + rewrite <- app_assoc. cbn [app].
      apply Permutation_sym, Permutation_middle.
    + intros y Hy. destruct (str_eqb x y) eqn:Y; [|apply app_nil_r].
      apply str_eqb_eq in Y. subst y. contradiction.
  - destruct Hin as [-> | Hin]; [now rewrite str_eqb_refl in E|].
    rewrite app_nil_r.
    eapply Permutation_trans; [apply Permutation_app_head, IH, Hin|].
    apply Permutation_sym, Permutation_middle.
Qed.

(** The fenced blocks are the unnamed ones and the members of the
    groups, each block once. *)
Lemma blocks_partition blocks :
  Permutation blocks
    (unnamed blocks
     ++ flat_map (fun name => members name blocks) (group_names blocks)).
Proof.
  induction blocks as [|b blocks IH] using rev_ind; [constructor|].
  rewrite unnamed_snoc, group_names_snoc.
  destruct (is_empty (block_name b)) eqn:E; cbn [orb].
  - rewrite app_nil_r.
    rewrite (flat_map_ext_in (fun name => members name (blocks ++ [b]))
                             (fun name => members name blocks)).
    + eapply Permutation_trans; [apply Permutation_app_comm|].
      rewrite <- app_assoc. cbn [app]. now apply Permutation_cons_app.
    + intros name Hin. apply group_names_In in Hin. destruct Hin as [Hn _].
      rewrite members_snoc.
      destruct (str_eqb (block_name b) name) eqn:N; [|apply app_nil_r].
      apply str_eqb_eq in N. apply is_empty_true in E. congruence.
  - rewrite app_nil_r.
    destruct (mem (block_name b) (group_names blocks)) eqn:M.
    + rewrite app_nil_r.
      rewrite (flat_map_ext_in (fun name => members name (blocks ++ [b]))
                 (fun name => members name blocks
                              ++ (if str_eqb (block_name b) name then [b] else []))).
      * eapply Permutation_trans; [apply Permutation_app_comm|]. cbn [app].
        eapply Permutation_trans;
          [|apply Permutation_app_head, Permutation_sym, flat_map_insert;
            [apply first_occurrences_NoDup | now apply mem_In]].
        now apply Permutation_cons_app.
      * intros name _. apply members_snoc.
    + rewrite flat_map_app. cbn [flat_map]. rewrite app_nil_r.
      rewrite members_snoc, str_eqb_refl, members_absent.
      * rewrite (flat_map_ext_in (fun name => members name (blocks ++ [b]))
                                 (fun name => members name blocks)).
        -- cbn [app]. rewrite app_assoc. now apply Permutation_app_tail.
        -- intros name Hin. rewrite members_snoc.
           destruct (str_eqb (block_name b) name) eqn:N; [|apply app_nil_r].
           apply str_eqb_eq in N. subst name.
           apply mem_false in M. contradiction.
      * apply mem_false in M. intros I. apply M. apply group_names_In.
        split; [now apply is_empty_false|].
        apply in_map_iff in I. destruct I as (b' & Eb & Hb). now exists b'.
Qed.

(** X13: no fenced block is lost or used twice: the blocks of the document
    are, up to their order, the unnamed blocks of the result and the
    members of the groups behind its merged blocks. *)
Theorem every_block_in_one_result_block mark path :
  example_values_nonempty ->
  let found := document_blocks path (markdown mark) in
  let groups := map (fun name => members name found) (group_names found) in
  exists blocks,
    get_top_level_block_codes mark path = Ok blocks /\
    blocks = unnamed found ++ map synthesized groups /\
    Forall (fun group => group <> []) groups /\
    Permutation found (unnamed found ++ List.concat groups).
Proof.
  intros W found groups.
  pose proof (extraction_structure mark path) as S.
  destruct (get_top_level_block_codes mark path) as [blocks|]; [|contradiction].
  cbn zeta in S. fold found in S.
  exists blocks. split; [reflexivity|]. unfold groups. split.
  - now rewrite map_map.
  - split.
    + apply Forall_map, Forall_forall. intros name. apply members_nonempty.
    + rewrite <- flat_map_concat_map. apply blocks_partition.
Qed.

(** X14: a group with one member gives that member itself. *)
Theorem single_member_group_kept mark path name b :
  example_values_nonempty ->
  name <> [] ->
  members name (document_blocks path (markdown mark)) = [b] ->
  exists blocks,
    get_top_level_block_codes mark path = Ok blocks /\ In b blocks.
Proof.
  intros W Hne Hm.
  pose proof (extraction_structure mark path) as S.
  destruct (get_top_level_block_codes mark path) as [blocks|]; [|contradiction].
  cbn zeta in S. set (found := document_blocks path (markdown mark)) in *.
  exists blocks. split; [reflexivity|].
  assert (I : In b (members name found)) by (rewrite Hm; now left).
  apply block_name_members in I. destruct I as [Hb Hin].
  rewrite S. apply in_or_app. right. apply in_map_iff. exists name. split.
  - rewrite Hm. unfold synthesized. now destruct b.
  - apply group_names_In. split; [assumption | now exists b].
Qed.

Lemma run_blocks_In all_blocks :
  forall kept,
    run_blocks all_blocks = Ok kept ->
    forall b, In b kept <->
              In b all_blocks /\
              exists value, skip_value b = Ok value /\ value <> py "true".
Proof.
  induction all_blocks as [|a rest IH]; intros kept H b.
  - injection H as <-. split; [contradiction | now intros [[] _]].
  - cbn [run_blocks] in H.
    destruct (skip_value a) as [value|] eqn:V; [|discriminate]. cbn [bind] in H.
    destruct (run_blocks rest) as [kept'|]; [|discriminate]. cbn [bind] in H.
    injection H as <-. specialize (IH _ eq_refl b).
    destruct (str_eqb value (py "true")) eqn:T; cbn [negb].
    + apply str_eqb_eq in T. rewrite IH. split.
      * intros [Hin Hv]. split; [now right | assumption].
      * intros [[<- | Hin] Hv]; [|now split].
        destruct Hv as (v & Hv & Hn). congruence.
    + apply str_eqb_neq in T. cbn [In]. rewrite IH. split.
      * intros [<- | [Hin Hv]]; [|split; [now right | assumption]].
        split; [now left | now exists value].
      * intros [[<- | Hin] Hv]; [now left | right; now split].
Qed.

(** X15: a merged block is run when its first member is not labeled [skip]:
    the label on the first member decides for the group, and the labels
    on the other members count for nothing. *)
Theorem group_runs_as_first_member mark path name first others blocks kept :
  get_top_level_block_codes mark path = Ok blocks ->
  run_blocks blocks = Ok kept ->
  name <> [] ->
  members name (document_blocks path (markdown mark)) = first :: others ->
  In (synthesized (first :: others)) blocks /\
  (In (synthesized (first :: others)) kept <->
   exists value, skip_value first = Ok value /\ value <> py "true").
Proof.
  intros Hget Hrun Hne Hm.
  pose proof (extraction_structure mark path) as S. rewrite Hget in S.
  cbn zeta in S. set (found := document_blocks path (markdown mark)) in *.
  assert (Hin : In (synthesized (first :: others)) blocks).
  { rewrite S. apply in_or_app. right. apply in_map_iff. exists name.
    split; [now rewrite Hm|].
    assert (I : In first (members name found)) by (rewrite Hm; now left).
    apply block_name_members in I. destruct I as [Hb Hf].
    apply group_names_In. split; [assumption | now exists first]. }
  split; [assumption|].
  rewrite (run_blocks_In blocks Hrun).
  assert (V : skip_value (synthesized (first :: others)) = skip_value first)
    by reflexivity.
  rewrite V. split; [now intros [_ H] | now split].
Qed.

Lemma startswith_partition p c s :
  startswith p (fst (partition c s)) = true -> startswith p s = true.
Proof.
  revert s. induction p as [|a p IH]; intros s; [reflexivity|].
  destruct s as [|d t]; [discriminate|]. cbn [partition].
  destruct (Ascii.eqb d c); [discriminate|].
  destruct (partition c t) as [x y] eqn:P. cbn [fst startswith].
  intros H. apply andb_prop in H. destruct H as [H1 H2].
  rewrite H1. cbn [andb]. apply IH. now rewrite P.
Qed.

Lemma startswith_rstrip p s :
  forallb (fun c => negb (is_space c)) p = true ->
  startswith p s = true -> startswith p (rstrip s) = true.
Proof.
  revert s. induction p as [|a p IH]; intros s Hp; [reflexivity|].
  destruct s as [|d t]; [discriminate|]. cbn [startswith forallb] in *.
  apply andb_prop in Hp. destruct Hp as [Ha Hp].
  intros H. apply andb_prop in H. destruct H as [H1 H2].
  specialize (IH t Hp H2). rewrite rstrip_cons.
  apply Ascii.eqb_eq in H1. subst d. apply negb_true_iff in Ha.
  destruct (rstrip t) as [|e r].
  - rewrite Ha. cbn [startswith]. rewrite Ascii.eqb_refl.
    destruct p; [reflexivity | discriminate].
  - cbn [startswith]. now rewrite Ascii.eqb_refl.
Qed.

Lemma startswith_strip p s :
  p <> [] ->
  forallb (fun c => negb (is_space c)) p = true ->
  startswith p s = true -> startswith p (strip s) = true.
Proof.
  intros Hne Hp H. unfold strip.
  assert (L : lstrip s = s).
  { destruct p as [|a p]; [contradiction|]. destruct s as [|d t]; [reflexivity|].
    cbn [startswith forallb] in *.
    apply andb_prop in Hp, H. destruct Hp as [Ha _], H as [H _].
    apply Ascii.eqb_eq in H. subst d. apply negb_true_iff in Ha.
    cbn [lstrip]. now rewrite Ha. }
  rewrite L. now apply startswith_rstrip.
Qed.

(** X16: a block that the harness runs, or the placeholder that it runs
    when the language is not asked for, is formatted by the [style]
    command in the same language: under a header that gives the block
    its language, [format_str] returns the block around the
    right-trimmed output of black when the harness runs the block as
    Python, and of the R styler when the harness runs it as R. *)
Theorem tested_blocks_are_formatted languages blocks b header src img :
  language b = fst (partition question (lower header)) ->
  In b (python_code_block_params languages blocks ++
        r_code_block_params languages blocks) ->
  format_str src header img =
  (out <- (if startswith (py "py") (language b)
           then black_format_str src
           else styler img src) ;;
   Ok (render (lower (strip header)) (rstrip out))).
Proof.
  intros Hl Hin. apply in_app_or in Hin. destruct Hin as [Hin | Hin].
  - assert (P : startswith (py "py") (language b) = true).
    { unfold python_code_block_params in Hin.
      destruct (_ || _) in Hin.
      - now apply filter_In in Hin.
      - destruct Hin as [<- | []]. reflexivity. }
    rewrite P. apply format_str_py.
    unfold routed_py. rewrite <- strip_lower.
    rewrite Hl in P. apply startswith_partition in P.
    apply startswith_strip; [discriminate | reflexivity | assumption].
  - assert (R : language b = py "r").
    { unfold r_code_block_params in Hin.
      destruct (_ || _) in Hin.
      - apply filter_In in Hin. now apply str_eqb_eq.
      - destruct Hin as [<- | []]. reflexivity. }
    assert (S : startswith (py "r") (strip (lower header)) = true).
    { apply startswith_strip; [discriminate | reflexivity |].
      apply (startswith_partition _ question). now rewrite <- Hl, R. }
    rewrite R. change (startswith (py "py") (py "r")) with false. cbv iota.
    apply format_str_r; unfold routed_py, routed_r; rewrite <- strip_lower;
      [|assumption].
    apply startswith_split in S. destruct S as (t & ->). reflexivity.
Qed.


Lemma expand_paths_from_spec paths :
  forall all_paths,
    expand_paths_from all_paths paths = all_paths ++ flat_map expanded paths.
Proof.
  induction paths as [|path rest IH]; intros all_paths.
  - cbn. now rewrite app_nil_r.
  - cbn [expand_paths_from flat_map]. unfold expanded at 1.
    destruct (negb (path_exists path)); [apply IH|].
    destruct (path_is_file path); [now rewrite IH, <- app_assoc|].
    destruct (path_is_dir path); [now rewrite IH, <- app_assoc|].
    apply IH.
Qed.

(** X18: [_expand_paths] puts, in the place of each path and in the
    order given, the path itself when it is a file, the markdown files
    under it when it is a directory, and nothing, without an error,
    when it does not exist or is neither; so two lists expand to the
    two expansions in a row, and a path is returned exactly when one of
    the paths given accounts for it. *)
Theorem expand_paths_spec paths more p :
  _expand_paths paths =
  flat_map (fun path =>
              if negb (path_exists path) then []
              else if path_is_file path then [path]
              else if path_is_dir path then path_glob path
              else []) paths /\
  _expand_paths (paths ++ more) = _expand_paths paths ++ _expand_paths more /\
  (In p (_expand_paths paths) <->
   exists path,
     In path paths /\ path_exists path = true /\
     (path_is_file path = true /\ p = path \/
      path_is_file path = false /\ path_is_dir path = true /\
      In p (path_glob path))).
Proof.
  unfold _expand_paths. rewrite !expand_paths_from_spec. cbn [app].
  split; [reflexivity|]. split.
  - apply flat_map_app.
  - rewrite in_flat_map. split.
    + intros (path & Hin & Hp). exists path. split; [assumption|].
      unfold expanded in Hp.
      destruct (path_exists path); [|contradiction]. cbn [negb] in Hp.
      split; [reflexivity|].
      destruct (path_is_file path).
      * left. destruct Hp as [<- | []]. now split.
      * right. destruct (path_is_dir path); [now repeat split | contradiction].
    + intros (path & Hin & He & Hcase). exists path. split; [assumption|].
      unfold expanded. rewrite He. cbn [negb].
      destruct Hcase as [[Hf ->] | (Hf & Hd & Hg)].
      * rewrite Hf. now left.
      * now rewrite Hf, Hd.
Qed.

End Pipeline.

(** ** Examples *)

(** The formatters [tidy] and [newline_ended] survive the rewrite on
    the blocks of the sample file. *)
Lemma sample_file_blocks_survive :
  Forall (block_survives tidy (fun _ => newline_ended) [])
         (file_blocks sample_file).
Proof.
  assert (B : file_blocks sample_file =
              [ (py "x=1", py "PY"); (py "y<-1", py "r");
                (py "ls", py "Bash") ]) by reflexivity.
  rewrite B. constructor; [|constructor; [|constructor; [|constructor]]].
  - change (survives tidy (py "x=1")). intros out H.
    vm_compute in H. injection H as <-.
    split; [vm_compute; repeat constructor|].
    exists (py "x = 1" ++ [nl]). split; reflexivity.
  - change (survives newline_ended (py "y<-1")). intros out H.
    vm_compute in H. injection H as <-.
    split; [vm_compute; repeat constructor|].
    exists (py "y<-1" ++ [nl]). split; reflexivity.
  - exact I.
Qed.










Lemma dict_append_values (V : Type) key (value : V) (d : dict V) :
  Forall (fun kv => snd kv <> []) d ->
  Forall (fun kv => snd kv <> []) (dict_append key value d).
Proof.
  induction 1 as [|[k v] d Hv Hd IH]; simpl.
  - constructor; [discriminate | constructor].
  - destruct (str_eqb k key); constructor; simpl in *; auto.
    now destruct v.
Qed.

Lemma dict_get_values (V : Type) key (d : dict V) :
  Forall (fun kv => snd kv <> []) d -> dict_get key d <> Some [].
Proof.
  induction 1 as [|[k v] d Hv _ IH]; simpl; [discriminate|].
  destruct (str_eqb k key); [|assumption].
  simpl in Hv. congruence.
Qed.

(** The query-string parser returns no key without a value. *)
Lemma urllib_parse_qs_values : example_values_nonempty urllib_parse_qs.
Proof.
  intros query. apply dict_get_values. unfold urllib_parse_qs.
  assert (F : forall pairs acc,
             Forall (fun kv : str * list str => snd kv <> []) acc ->
             Forall (fun kv => snd kv <> [])
                    (fold_left (fun parsed nv => dict_append (fst nv) (snd nv) parsed)
                               pairs acc)).
  { induction pairs as [|nv pairs IH]; intros acc H; simpl; [assumption|].
    apply IH. now apply dict_append_values. }
  apply F. constructor.
Qed.

Lemma named_group_merged_witness :
  let member :=
    mk_block (py "py") (py "x = 1") [(py "example", [py "a"])] (py "f.md") in
  example_values_nonempty urllib_parse_qs /\
  In member (document_blocks urllib_parse_qs (py "f.md")
                             (parsed_as sample_ast [])) /\
  block_name member = py "a" /\
  py "a" <> [] /\
  exists blocks first others,
    get_top_level_block_codes (parsed_as sample_ast) urllib_parse_qs []
                              (py "f.md") = Ok blocks /\
    members (py "a") (document_blocks urllib_parse_qs (py "f.md")
                                      (parsed_as sample_ast [])) =
    first :: others /\
    filter (fun b => str_eqb (block_name b) (py "a")) blocks =
    [mk_block (language first)
              (join [nl; nl] (map code (first :: others)))
              (options first) (location first)].
Proof.
  intros member.
  assert (H1 : In member (document_blocks urllib_parse_qs (py "f.md")
                                          (parsed_as sample_ast [])))
    by (vm_compute; auto).
  assert (H2 : block_name member = py "a") by reflexivity.
  assert (H3 : py "a" <> []) by discriminate.
  exact (conj urllib_parse_qs_values (conj H1 (conj H2 (conj H3
    (named_group_merged (parsed_as sample_ast) [] (py "f.md") member
                        urllib_parse_qs_values H1 H2 H3))))).
Defined.

Lemma unnamed_then_groups_witness :
  example_values_nonempty urllib_parse_qs /\
  exists blocks,
    get_top_level_block_codes (parsed_as sample_ast) urllib_parse_qs []
                              (py "f.md") = Ok blocks /\
    List.length blocks = 2.
Proof.
  split; [exact urllib_parse_qs_values|].
  destruct (unnamed_then_groups (parsed_as sample_ast) [] (py "f.md")
                                urllib_parse_qs_values)
    as (blocks & H & _ & _ & _ & L).
  exists blocks. split; [exact H | exact L].
Defined.

Lemma marker_in_fence_closes_witness :
  let st := mk_state true (Some (py "bash")) [py "ls"] [py "intro"] in
  is_fence_line (py "```  ") = true /\
  is_in_fence st = true /\
  fence_parameters st = Some (py "bash") /\
  step unformatted (fun _ => unformatted) [] st (py "```  ") =
  Ok (mk_state false None []
               [py "intro"; join [nl] [py "```bash"; py "ls"; py "```"]]).
Proof.
  intros st.
  refine (conj eq_refl (conj eq_refl (conj eq_refl _))).
  exact (proj1 (marker_in_fence_closes unformatted (fun _ => unformatted) []
                  st (py "```  ") (p := py "bash") eq_refl eq_refl eq_refl)).
Defined.

Lemma unterminated_fence_dropped_witness :
  let content := file_of ["intro"; "```py"; "x=1"]%string in
  let pre := [py "intro" ++ [nl]] in
  let opening := py "```py" ++ [nl] in
  let body := [py "x=1" ++ [nl]] in
  let st := mk_state false None [] [py "intro"] in
  readlines (universal_newlines content) = pre ++ opening :: body /\
  scan unformatted (fun _ => unformatted) [] init_state pre = Ok st /\
  is_in_fence st = false /\
  is_fence_line opening = true /\
  Forall (fun line => is_fence_line line = false) body /\
  format_file unformatted (fun _ => unformatted) content [] =
  Ok (file_of ["intro"]%string).
Proof.
  intros content pre opening body st.
  assert (B : Forall (fun line => is_fence_line line = false) body)
    by (constructor; [reflexivity | constructor]).
  refine (conj eq_refl (conj eq_refl (conj eq_refl (conj eq_refl (conj B _))))).
  exact (proj1 (unterminated_fence_dropped unformatted (fun _ => unformatted)
                  content [] pre opening (body := body) (st := st)
                  eq_refl eq_refl eq_refl eq_refl B)).
Defined.

Lemma passthrough_wraps_lowercased_header_witness :
  passthrough (py " Bash ") = true /\
  format_str unformatted (fun _ => unformatted) (py "x=1") (py " Bash ") [] =
  Ok (join [nl] [py "```bash"; py "x=1"; py "```"]).
Proof.
  split; [reflexivity|].
  exact (passthrough_wraps_lowercased_header unformatted (fun _ => unformatted)
           (py "x=1") (py " Bash ") [] eq_refl).
Defined.

(** C5, as the spec has it, fails: the opening marker does not carry
    the header as it was written. *)
Lemma passthrough_header_not_original :
  passthrough (py "Bash") = true /\
  forall black styler img,
    format_str black styler (py "x=1") (py "Bash") img =
    Ok (join [nl] [py "```bash"; py "x=1"; py "```"]) /\
    format_str black styler (py "x=1") (py "Bash") img <>
    Ok (join [nl] [fence ++ py "Bash"; py "x=1"; fence]).
Proof.
  split; [reflexivity|]. intros black styler img.
  split; [reflexivity | discriminate].
Qed.

Lemma verbatim_file_unchanged_witness :
  let content :=
    file_of ["Some text  "; "```bash"; "x=1"; "```"; "More text"; " "]%string in
  verbatim_doc (readlines (universal_newlines content)) /\
  format_file unformatted (fun _ => unformatted) content [] =
  Ok (file_of ["Some text"; "```bash"; "x=1"; "```"; "More text"]%string).
Proof.
  intros content.
  assert (V : verbatim_doc (readlines (universal_newlines content))).
  { apply verbatim_plain; [reflexivity|].
    apply (@verbatim_fence (py "```bash" ++ [nl]) (py "bash")
             [py "x=1" ++ [nl]] (py "```" ++ [nl])
             [py "More text" ++ [nl]; py " " ++ [nl]]);
      try reflexivity; try discriminate.
    - constructor; [reflexivity | constructor].
    - apply verbatim_plain; [reflexivity|].
      apply verbatim_plain; [reflexivity|].
      apply verbatim_nil. }
  split; [exact V|].
  exact (verbatim_file_unchanged unformatted (fun _ => unformatted) content [] V).
Defined.

(** C6, as the spec has it, fails: without any fence for a formatter, the
    rewrite still lowercases a header, drops a fence that is not closed,
    cuts what follows a closing marker and puts an empty line in an
    empty fence. *)
Lemma unrecognized_fence_rewritten :
  passthrough (py "Bash") = true /\
  passthrough (py "text") = true /\
  passthrough [] = true /\
  forall black styler img,
    (format_file black styler (file_of ["```Bash"; "ls"; "```"]%string) img =
     Ok (file_of ["```bash"; "ls"; "```"]%string) /\
     format_file black styler (file_of ["```Bash"; "ls"; "```"]%string) img <>
     Ok (normalize (file_of ["```Bash"; "ls"; "```"]%string)) /\
     without_space (file_of ["```bash"; "ls"; "```"]%string) <>
     without_space (file_of ["```Bash"; "ls"; "```"]%string)) /\
    format_file black styler (file_of ["```text"; "ls"]%string) img =
    Ok [nl] /\
    format_file black styler (file_of ["```text"; "ls"; "```js"]%string) img =
    Ok (file_of ["```text"; "ls"; "```"]%string) /\
    format_file black styler (file_of ["```"; "```"]%string) img =
    Ok (file_of ["```"; EmptyString; "```"]%string).
Proof.
  repeat split; try reflexivity; vm_compute; discriminate.
Qed.

Lemma format_file_idempotent_witness :
  let styler := fun _ : str => newline_ended in
  let marker := fun _ : str => always (file_of ["x"; "```"; "y"]%string) in
  let plain := file_of ["intro  "; "```Bash"; "ls"; "```"]%string in
  let plain_rewritten := file_of ["intro"; "```bash"; "ls"; "```"]%string in
  (Forall (block_survives tidy styler []) (file_blocks sample_file) /\
   format_file tidy styler sample_file [] = Ok sample_file_tidied /\
   format_file tidy styler sample_file_tidied [] = Ok sample_file_tidied /\
   format_file tidy styler (print sample_file_tidied) [] =
   Ok sample_file_tidied) /\
  (Forall (block_survives (rejecting []) marker []) (file_blocks plain) /\
   format_file (rejecting []) marker plain [] = Ok plain_rewritten /\
   format_file (rejecting []) marker plain_rewritten [] = Ok plain_rewritten /\
   format_file (rejecting []) marker (print plain_rewritten) [] =
   Ok plain_rewritten).
Proof.
  intros styler marker plain plain_rewritten.
  assert (H : format_file tidy styler sample_file [] = Ok sample_file_tidied)
    by reflexivity.
  assert (P : Forall (block_survives (rejecting []) marker [])
                     (file_blocks plain)).
  { assert (B : file_blocks plain = [(py "ls", py "Bash")]) by reflexivity.
    rewrite B. constructor; [exact I | constructor]. }
  assert (Hp : format_file (rejecting []) marker plain [] = Ok plain_rewritten)
    by reflexivity.
  split.
  - exact (conj sample_file_blocks_survive (conj H
      (@format_file_idempotent tidy styler sample_file [] sample_file_tidied
         sample_file_blocks_survive H))).
  - exact (conj P (conj Hp
      (@format_file_idempotent (rejecting []) marker plain [] plain_rewritten
         P Hp))).
Defined.

(** C7, as the spec has it, fails: a formatter can return its own
    output unchanged and still print a marker line, which the second
    pass reads as the end of the fence. *)
Lemma idempotent_formatter_not_enough :
  let styler := fun _ : str => always (file_of ["x"; "```"; "y"]%string) in
  let once := file_of ["```r"; "x"; "```"; "y"; "```"]%string in
  let twice := file_of ["```r"; "x"; "```"; "y"; "```"; "y"]%string in
  idempotent unformatted /\
  idempotent (styler []) /\
  format_file unformatted styler (file_of ["```r"; "a"; "```"]%string) [] =
  Ok once /\
  format_file unformatted styler once [] = Ok twice /\
  once <> twice.
Proof.
  intros styler once twice.
  split; [intros src out [= <-]; reflexivity|].
  split; [intros src out H; exact H|].
  split; [reflexivity|]. split; [reflexivity|].
  vm_compute. discriminate.
Qed.

Lemma format_error_aborts_batch_witness :
  let black := rejecting (py "(") in
  let styler := fun _ : str => unformatted in
  let fs1 := fs_write sample_files (py "b.md") (file_of ["x"; EmptyString]%string) in
  let content := file_of ["```py"; "("; "```"]%string in
  let pre := [py "```py" ++ [nl]; py "(" ++ [nl]] in
  let closing := py "```" ++ [nl] in
  let st := mk_state true (Some (py "py")) [py "("] [] in
  style_command black styler [py "b.md"] [] sample_files = (fs1, Ok tt) /\
  fs1 (py "a.md") = Some content /\
  readlines (universal_newlines content) = pre ++ closing :: [] /\
  scan black styler [] init_state pre = Ok st /\
  is_in_fence st = true /\
  fence_parameters st = Some (py "py") /\
  routed_py (py "py") = true /\
  is_fence_line closing = true /\
  black (join [nl] (fenced_lines st)) = Err InvalidInput /\
  format_str black styler (join [nl] (fenced_lines st)) (py "py") [] =
  Err InvalidInput /\
  format_file black styler content [] = Err InvalidInput /\
  style_command black styler ([py "b.md"] ++ py "a.md" :: [py "c.md"]) []
                sample_files = (fs1, Err InvalidInput).
Proof.
  intros black styler fs1 content pre closing st.
  assert (H1 : style_command black styler [py "b.md"] [] sample_files =
               (fs1, Ok tt)) by reflexivity.
  refine (conj H1 (conj eq_refl (conj eq_refl (conj eq_refl (conj eq_refl
           (conj eq_refl (conj eq_refl (conj eq_refl (conj eq_refl _))))))))).
  exact (format_error_aborts_batch black styler [] [py "b.md"] (py "a.md")
           [py "c.md"] sample_files (fs1 := fs1) (content := content)
           pre closing [] (st := st) (header := py "py") (e := InvalidInput)
           H1 eq_refl eq_refl eq_refl eq_refl eq_refl eq_refl eq_refl eq_refl).
Defined.

(** C8, as the spec has it, fails: the error of one file ends the
    command, and the files after it in the batch are not rewritten. *)
Lemma later_files_not_processed :
  let black := rejecting (py "(") in
  let styler := fun _ : str => unformatted in
  let result := style_command black styler [py "a.md"; py "b.md"] []
                              sample_files in
  snd result = Err InvalidInput /\
  fst result (py "b.md") = Some (file_of ["x  "]%string) /\
  format_file black styler (file_of ["x  "]%string) [] =
  Ok (file_of ["x"]%string) /\
  fst (style_command black styler [py "b.md"] [] sample_files) (py "b.md") =
  Some (file_of ["x"; EmptyString]%string).
Proof. repeat split. Qed.

(** C9 fails on the code: [format_file] ends its result in one newline
    and the command prints it, so that the file ends in two. *)
Theorem style_command_file_ends_in_two_newlines black styler img :
  let fs := fs_write no_files (py "a.md") (file_of ["hello"]%string) in
  let result := style_command black styler [py "a.md"] img fs in
  format_file black styler (file_of ["hello"]%string) img =
  Ok (py "hello" ++ [nl]) /\
  snd result = Ok tt /\
  fst result (py "a.md") = Some (py "hello" ++ [nl; nl]).
Proof.
  intros fs result. split; [reflexivity|].
  unfold result. cbn [style_command]. unfold open_rt, fs.
  split; reflexivity.
Qed.



(** ** Examples for the further properties *)

Lemma format_file_error_from_formatter_witness :
  let black := rejecting (py "(") in
  let styler := fun _ : str => unformatted in
  (format_file_at black styler sample_files (py "a.md") [] = Err InvalidInput /\
   (sample_files (py "a.md") = None /\ InvalidInput = FileNotFoundError \/
    exists content done src header rest,
      sample_files (py "a.md") = Some content /\
      file_blocks content = done ++ (src, header) :: rest /\
      Forall (block_formats black styler []) done /\
      format_str black styler src header [] = Err InvalidInput /\
      (routed_py header = true /\ black src = Err InvalidInput \/
       routed_py header = false /\ routed_r header = true /\
       styler [] src = Err InvalidInput))) /\
  (format_file_at black styler sample_files (py "c.md") [] =
   Err FileNotFoundError /\
   (sample_files (py "c.md") = None /\ FileNotFoundError = FileNotFoundError \/
    exists content done src header rest,
      sample_files (py "c.md") = Some content /\
      file_blocks content = done ++ (src, header) :: rest /\
      Forall (block_formats black styler []) done /\
      format_str black styler src header [] = Err FileNotFoundError /\
      (routed_py header = true /\ black src = Err FileNotFoundError \/
       routed_py header = false /\ routed_r header = true /\
       styler [] src = Err FileNotFoundError))).
Proof.
  intros black styler. split.
  - split; [reflexivity|].
    exact (@format_file_error_from_formatter black styler sample_files
             (py "a.md") [] InvalidInput eq_refl).
  - split; [reflexivity|].
    exact (@format_file_error_from_formatter black styler sample_files
             (py "c.md") [] FileNotFoundError eq_refl).
Defined.

Lemma format_file_returns_witness :
  let black := rejecting (py "(") in
  let styler := fun _ : str => newline_ended in
  let fs := fs_write no_files (py "a.md") sample_file in
  (exists content,
      fs (py "a.md") = Some content /\
      Forall (block_formats black styler []) (file_blocks content)) /\
  (exists output, format_file_at black styler fs (py "a.md") [] = Ok output) /\
  black (py "(") = Err InvalidInput.
Proof.
  intros black styler fs.
  assert (H : exists content,
             fs (py "a.md") = Some content /\
             Forall (block_formats black styler []) (file_blocks content)).
  { exists sample_file. split; [reflexivity|].
    assert (B : file_blocks sample_file =
                [ (py "x=1", py "PY"); (py "y<-1", py "r");
                  (py "ls", py "Bash") ]) by reflexivity.
    rewrite B.
    constructor; [|constructor; [|constructor; [|constructor]]];
      eexists; reflexivity. }
  exact (conj H (conj
    (proj2 (@format_file_returns black styler fs (py "a.md") []) H) eq_refl)).
Defined.

Lemma format_file_line_ends_witness :
  ~ In cr sample_file /\
  format_file unformatted (fun _ => unformatted)
              (with_line_end [cr; nl] sample_file) [] =
  format_file unformatted (fun _ => unformatted) sample_file [] /\
  format_file unformatted (fun _ => unformatted)
              (with_line_end [cr] sample_file) [] =
  format_file unformatted (fun _ => unformatted) sample_file [].
Proof.
  assert (H : ~ In cr sample_file).
  { intros I. vm_compute in I. intuition discriminate. }
  exact (conj H (@format_file_line_ends unformatted (fun _ => unformatted)
                   sample_file [] H)).
Defined.

Lemma format_file_trailing_whitespace_witness :
  let content1 := file_of ["text  "; "```sh   "; "ls "; "``` "]%string in
  let content2 := file_of ["text"; "```sh"; "ls"; "```"]%string in
  map rstrip (readlines (universal_newlines content1)) =
  map rstrip (readlines (universal_newlines content2)) /\
  format_file unformatted (fun _ => unformatted) content1 [] =
  format_file unformatted (fun _ => unformatted) content2 [].
Proof.
  intros content1 content2.
  exact (conj eq_refl
           (@format_file_trailing_whitespace unformatted (fun _ => unformatted)
              content1 content2 [] eq_refl)).
Defined.

Lemma indented_marker_is_text_witness :
  is_space " "%char = true /\
  step unformatted (fun _ => unformatted) [] init_state (py " ```py") =
  Ok (mk_state false None [] [py " ```py"]).
Proof.
  split; [reflexivity|].
  exact (@indented_marker_is_text unformatted (fun _ => unformatted) []
           init_state " "%char (py "```py") eq_refl).
Defined.

Lemma format_file_ends_in_one_newline_witness :
  format_file unformatted (fun _ => unformatted) sample_file [] =
  Ok sample_file_rewritten /\
  exists text,
    sample_file_rewritten = text ++ [nl] /\
    rstrip sample_file_rewritten = text /\
    (forall before c, text = before ++ [c] -> is_space c = false).
Proof.
  split; [reflexivity|].
  exact (@format_file_ends_in_one_newline unformatted (fun _ => unformatted)
           sample_file [] sample_file_rewritten eq_refl).
Defined.

Lemma format_str_returns_block_witness :
  let styler := fun _ : str => newline_ended in
  let block := join [nl] [py "```py"; py "x = 1"; py "```"] in
  format_str tidy styler (py "x=1") (py " PY ") [] = Ok block /\
  routed_py (py " PY ") = true /\
  exists body,
    block = fence ++ lower (strip (py " PY ")) ++ [nl] ++ body ++ [nl] ++ fence /\
    exists out, tidy (py "x=1") = Ok out /\ body = rstrip out.
Proof.
  intros styler block. split; [reflexivity|]. split; [reflexivity|].
  exact (@format_str_returns_block tidy styler (py "x=1") (py " PY ") []
           block eq_refl).
Defined.

Lemma format_file_blank_witness :
  forallb is_space (file_of ["  "; EmptyString; " "]%string) = true /\
  format_file unformatted (fun _ => unformatted)
              (file_of ["  "; EmptyString; " "]%string) [] = Ok [nl].
Proof.
  split; [reflexivity|].
  exact (@format_file_blank unformatted (fun _ => unformatted)
           (file_of ["  "; EmptyString; " "]%string) [] eq_refl).
Defined.

Lemma style_command_rewrites_each_witness :
  let fs := fs_write (fs_write no_files (py "b.md") (file_of ["x  "]%string))
                     (py "a.md") (file_of ["```Sh"; "ls"; "```"]%string) in
  let fs' := fs_write (fs_write fs (py "a.md")
                                (file_of ["```sh"; "ls"; "```"; EmptyString]%string))
                      (py "b.md") (file_of ["x"; EmptyString]%string) in
  style_command unformatted (fun _ => unformatted) [py "a.md"; py "b.md"] [] fs =
  (fs', Ok tt) /\
  NoDup [py "a.md"; py "b.md"] /\
  (exists content output,
      fs (py "b.md") = Some content /\
      format_file unformatted (fun _ => unformatted) content [] = Ok output /\
      fs' (py "b.md") = Some (print output)) /\
  fs' (py "c.md") = fs (py "c.md").
Proof.
  intros fs fs'.
  assert (H : style_command unformatted (fun _ => unformatted)
                [py "a.md"; py "b.md"] [] fs = (fs', Ok tt)) by reflexivity.
  assert (N : NoDup [py "a.md"; py "b.md"]).
  { constructor; [|constructor; [|constructor]]; simpl; intuition discriminate. }
  destruct (@style_command_rewrites_each unformatted (fun _ => unformatted)
              [py "a.md"; py "b.md"] [] fs fs' H N) as [Each Other].
  refine (conj H (conj N (conj (Each (py "b.md") _) (Other (py "c.md") _)))).
  - right. now left.
  - simpl. intuition discriminate.
Defined.

Lemma style_command_failure_witness :
  let black := rejecting (py "(") in
  let styler := fun _ : str => unformatted in
  let fs' := fs_write sample_files (py "b.md") (file_of ["x"; EmptyString]%string) in
  style_command black styler [py "b.md"; py "a.md"; py "c.md"] [] sample_files =
  (fs', Err InvalidInput) /\
  exists done filename todo,
    [py "b.md"; py "a.md"; py "c.md"] = done ++ filename :: todo /\
    style_command black styler done [] sample_files = (fs', Ok tt) /\
    (content <- open_rt fs' filename ;; format_file black styler content []) =
    Err InvalidInput /\
    (forall other, ~ In other done -> fs' other = sample_files other).
Proof.
  intros black styler fs'.
  assert (H : style_command black styler [py "b.md"; py "a.md"; py "c.md"] []
                sample_files = (fs', Err InvalidInput)) by reflexivity.
  exact (conj H (@style_command_failure black styler
                   [py "b.md"; py "a.md"; py "c.md"] [] sample_files fs'
                   InvalidInput H)).
Defined.

Lemma style_command_twice_witness :
  let styler := fun _ : str => newline_ended in
  let fs := fs_write no_files (py "a.md") sample_file in
  let fs1 := fs_write fs (py "a.md") (print sample_file_tidied) in
  (forall filename content,
      In filename [py "a.md"] ->
      fs filename = Some content ->
      Forall (block_survives tidy styler []) (file_blocks content)) /\
  style_command tidy styler [py "a.md"] [] fs = (fs1, Ok tt) /\
  exists fs2,
    style_command tidy styler [py "a.md"] [] fs1 = (fs2, Ok tt) /\
    forall filename, fs2 filename = fs1 filename.
Proof.
  intros styler fs fs1.
  assert (Sv : forall filename content,
             In filename [py "a.md"] ->
             fs filename = Some content ->
             Forall (block_survives tidy styler []) (file_blocks content)).
  { intros filename content [<- | []] Hc.
    change (Some sample_file = Some content) in Hc. injection Hc as <-.
    exact sample_file_blocks_survive. }
  assert (H : style_command tidy styler [py "a.md"] [] fs = (fs1, Ok tt))
    by reflexivity.
  exact (conj Sv (conj H
    (@style_command_twice tidy styler [py "a.md"] [] fs fs1 Sv H))).
Defined.

Lemma non_code_elements_ignored_witness :
  filter is_block_code (sample_parser_code_only []) =
  filter is_block_code (sample_parser_code_only (py "blocks")) /\
  get_top_level_block_codes sample_parser_code_only urllib_parse_qs []
                            (py "f.md") =
  get_top_level_block_codes sample_parser_code_only urllib_parse_qs
                            (py "blocks") (py "f.md").
Proof.
  exact (conj eq_refl
           (@non_code_elements_ignored sample_parser_code_only urllib_parse_qs
              [] (py "blocks") (py "f.md") eq_refl)).
Defined.

Lemma every_block_in_one_result_block_witness :
  example_values_nonempty urllib_parse_qs /\
  let found := document_blocks urllib_parse_qs (py "f.md") (parsed_as sample_ast []) in
  let groups := map (fun name => members name found) (group_names found) in
  exists blocks,
    get_top_level_block_codes (parsed_as sample_ast) urllib_parse_qs []
                              (py "f.md") = Ok blocks /\
    blocks = unnamed found ++ map synthesized groups /\
    Forall (fun group => group <> []) groups /\
    Permutation found (unnamed found ++ List.concat groups).
Proof.
  exact (conj urllib_parse_qs_values
           (@every_block_in_one_result_block (parsed_as sample_ast)
              urllib_parse_qs [] (py "f.md") urllib_parse_qs_values)).
Defined.

Lemma single_member_group_kept_witness :
  let markdown :=
    parsed_as [ mk_elt (py "block_code") (Some (py "py?example=solo")) (py "x = 1");
                mk_elt (py "block_code") None (py "plain") ] in
  let b := mk_block (py "py") (py "x = 1") [(py "example", [py "solo"])]
                    (py "f.md") in
  example_values_nonempty urllib_parse_qs /\
  py "solo" <> [] /\
  members (py "solo") (document_blocks urllib_parse_qs (py "f.md") (markdown [])) =
  [b] /\
  exists blocks,
    get_top_level_block_codes markdown urllib_parse_qs [] (py "f.md") =
    Ok blocks /\ In b blocks.
Proof.
  intros markdown b.
  assert (N : py "solo" <> []) by discriminate.
  exact (conj urllib_parse_qs_values (conj N (conj eq_refl
    (@single_member_group_kept markdown urllib_parse_qs [] (py "f.md")
       (py "solo") b urllib_parse_qs_values N eq_refl)))).
Defined.

Lemma group_runs_as_first_member_witness :
  let markdown :=
    parsed_as [ mk_elt (py "block_code") (Some (py "py?example=a")) (py "x = 1");
                mk_elt (py "block_code") (Some (py "py?example=a&skip=true"))
                       (py "boom()") ] in
  let first := mk_block (py "py") (py "x = 1") [(py "example", [py "a"])]
                        (py "f.md") in
  let second := mk_block (py "py") (py "boom()")
                         [(py "example", [py "a"]); (py "skip", [py "true"])]
                         (py "f.md") in
  let merged := synthesized [first; second] in
  get_top_level_block_codes markdown urllib_parse_qs [] (py "f.md") =
  Ok [merged] /\
  run_blocks [merged] = Ok [merged] /\
  py "a" <> [] /\
  members (py "a") (document_blocks urllib_parse_qs (py "f.md") (markdown [])) =
  [first; second] /\
  In merged [merged] /\
  (In merged [merged] <->
   exists value, skip_value first = Ok value /\ value <> py "true").
Proof.
  intros markdown first second merged.
  assert (N : py "a" <> []) by discriminate.
  exact (conj eq_refl (conj eq_refl (conj N (conj eq_refl
    (@group_runs_as_first_member markdown urllib_parse_qs [] (py "f.md")
       (py "a") first [second] [merged] [merged] eq_refl eq_refl N eq_refl))))).
Defined.

Lemma tested_blocks_are_formatted_witness :
  let styler := fun _ : str => newline_ended in
  let b1 := mk_block (py "python") (py "x=1") [] (py "f.md") in
  let b2 := mk_block (py "r") (py "y<-1") [(py "example", [py "a"])]
                     (py "f.md") in
  let placeholder := mk_block (py "python") (py "1 + 1") [] [] in
  (language b1 = fst (partition question (lower (py "Python"))) /\
   In b1 (python_code_block_params [] [b1; b2] ++
          r_code_block_params [] [b1; b2]) /\
   format_str tidy styler (py "x=1") (py "Python") [] =
   Ok (render (py "python") (py "x = 1"))) /\
  (language b2 = fst (partition question (lower (py "R?example=a"))) /\
   In b2 (python_code_block_params [] [b1; b2] ++
          r_code_block_params [] [b1; b2]) /\
   format_str tidy styler (py "y<-1") (py "R?example=a") [] =
   Ok (render (py "r?example=a") (py "y<-1"))) /\
  (language placeholder = fst (partition question (lower (py "python"))) /\
   In placeholder (python_code_block_params [py "r"] [b1; b2] ++
                   r_code_block_params [py "r"] [b1; b2]) /\
   format_str unformatted styler (py "1 + 1") (py "python") [] =
   Ok (render (py "python") (py "1 + 1"))).
Proof.
  intros styler b1 b2 placeholder.
  assert (I1 : In b1 (python_code_block_params [] [b1; b2] ++
                      r_code_block_params [] [b1; b2])) by (now left).
  assert (I2 : In b2 (python_code_block_params [] [b1; b2] ++
                      r_code_block_params [] [b1; b2])) by (right; now left).
  assert (I3 : In placeholder
                 (python_code_block_params [py "r"] [b1; b2] ++
                  r_code_block_params [py "r"] [b1; b2])) by (now left).
  split; [|split].
  - exact (conj eq_refl (conj I1
      (@tested_blocks_are_formatted tidy styler [] [b1; b2] b1 (py "Python")
         (py "x=1") [] eq_refl I1))).
  - exact (conj eq_refl (conj I2
      (@tested_blocks_are_formatted tidy styler [] [b1; b2] b2
         (py "R?example=a") (py "y<-1") [] eq_refl I2))).
  - exact (conj eq_refl (conj I3
      (@tested_blocks_are_formatted unformatted styler [py "r"] [b1; b2]
         placeholder (py "python") (py "1 + 1") [] eq_refl I3))).
Defined.

Lemma expand_paths_spec_witness :
  let path_exists := fun path => negb (str_eqb path (py "gone")) in
  let path_is_file := fun path => str_eqb path (py "a.md") in
  let path_is_dir := fun path => str_eqb path (py "docs") in
  let path_glob := fun _ : str => [py "docs/b.md"; py "docs/c.md"] in
  _expand_paths path_exists path_is_file path_is_dir path_glob
                [py "gone"; py "docs"; py "a.md"; py "docs"] =
  [ py "docs/b.md"; py "docs/c.md"; py "a.md";
    py "docs/b.md"; py "docs/c.md" ].
Proof.
  intros path_exists path_is_file path_is_dir path_glob.
  exact (proj1 (@expand_paths_spec path_exists path_is_file path_is_dir
                  path_glob [py "gone"; py "docs"; py "a.md"; py "docs"]
                  [] [])).
Defined.
